(** * FormPersistence.js: a shallow embedding of the serialize/deserialize
    engine of [form-persistence.js], its storage wrappers, and the filtered
    revision of the module (with [include]/[exclude]).

    The DOM is a list of elements in document order; an element is addressed
    by its position in that list, so that writes made by [deserialize] hit
    the element they target.  Every element carries its form owner (the
    form under consideration, another form, or none), whether it is a
    descendant of that form, and the names the form's past-names map holds
    for it.  The platform behaviour the code relies on is written out:
    - [key in obj] also sees the properties of [Object.prototype];
    - [for (k in obj)] lists array-index keys first, in numeric order;
    - the selectors the resolver builds quote a value as a CSS string, which
      is tokenized (escapes decoded, a raw newline rejected);
    - [form.id], [form.elements], [form.querySelectorAll] and
      [form.addEventListener] are overridden by the form's named properties
      (its controls and images with that name or id), and
      [document.querySelectorAll] by the document's;
    - checking a radio button unchecks the rest of its group;
    - assigning [input.value] or [textarea.value] runs the value
      sanitization of the control.
    Strings are byte strings, read as Latin-1 code points. *)

From Stdlib Require Import List String Ascii Bool Arith NArith Lia.
Import ListNotations.
Open Scope string_scope.
Open Scope list_scope.

(** ** Values, elements, documents *)

(** A value held in a serialized record: a string, or a boolean for a
    checkbox state. *)
Inductive jval :=
| JStr (s : string)
| JBool (b : bool).

(** [element.tagName] of the elements the library looks at. *)
Inductive tag :=
| INPUT
| TEXTAREA
| SELECT
| OTHER (t : string).

Record option_el := mkOption {
  opt_value : string;      (** [option.value] *)
  selected : bool          (** [option.selected] *)
}.

(** The form owner of an element: the form under consideration, another
    form of the page, or none. *)
Inductive form_owner :=
| ThisForm
| OtherForm (k : nat)
| NoOwner.

Record element := mkElement {
  tagName : tag;
  type : string;               (** [element.type] of an input, normalised *)
  name_attr : option string;   (** the [name] attribute *)
  id_attr : option string;     (** the [id] attribute *)
  value : string;              (** [element.value] of an input or textarea *)
  checked : bool;              (** [element.checked] *)
  multiple : bool;             (** the [multiple] attribute (select, email input) *)
  options : list option_el;    (** [select.options] *)
  form_attr : option string;   (** the [form] attribute *)
  nested : bool;               (** descendant of the form *)
  owner : form_owner;          (** the element's form owner *)
  past_names : list string     (** its entries in the form's past-names map *)
}.

Definition doc := list element.

(** The form element itself: [form_id] is its [id] attribute ([""] when
    absent), [form_name] its [name] attribute. *)
Record form := mkForm {
  form_id : string;
  form_name : option string
}.

(** [element.name]: the empty string when the attribute is absent. *)
Definition name (e : element) : string :=
  match name_attr e with Some n => n | None => "" end.

(** JS truthiness of a string. *)
Definition truthy (s : string) : bool := negb (String.eqb s "").

Definition is_input (e : element) : bool :=
  match tagName e with INPUT => true | _ => false end.

Definition is_tag (t : string) (e : element) : bool :=
  match tagName e with OTHER t' => String.eqb t' t | _ => false end.

Definition tag_eqb (a b : tag) : bool :=
  match a, b with
  | INPUT, INPUT | TEXTAREA, TEXTAREA | SELECT, SELECT => true
  | OTHER t, OTHER t' => String.eqb t t'
  | _, _ => false
  end.

Definition owner_eqb (a b : form_owner) : bool :=
  match a, b with
  | ThisForm, ThisForm | NoOwner, NoOwner => true
  | OtherForm k, OtherForm k' => Nat.eqb k k'
  | _, _ => false
  end.

Definition is_this_form (e : element) : bool := owner_eqb (owner e) ThisForm.

(** [a === s] for an optional attribute value [a]. *)
Definition attr_is (a : option string) (s : string) : bool :=
  match a with Some x => String.eqb x s | None => false end.

(** [select.value]: the value of the first selected option, or [""]. *)
Fixpoint first_selected_value (os : list option_el) : string :=
  match os with
  | [] => ""
  | o :: os' => if selected o then opt_value o else first_selected_value os'
  end.

Definition select_value (e : element) : string := first_selected_value (options e).

(** Positions, in document order, of the elements satisfying [p]:
    the result of a [querySelectorAll]. *)
Fixpoint indices_from (p : element -> bool) (d : doc) (n : nat) : list nat :=
  match d with
  | [] => []
  | e :: d' => if p e then n :: indices_from p d' (S n) else indices_from p d' (S n)
  end.

Definition querySelectorAll (p : element -> bool) (d : doc) : list nat := indices_from p d 0.

(** [g] applied to each element of [l] with its position, counted from [n]. *)
Fixpoint map_positions (g : nat -> element -> element) (n : nat) (l : doc) : doc :=
  match l with
  | [] => []
  | e :: l' => g n e :: map_positions g (S n) l'
  end.

Fixpoint replace_nth {A} (i : nat) (x : A) (l : list A) : list A :=
  match l, i with
  | [], _ => []
  | _ :: l', 0 => x :: l'
  | y :: l', S i' => y :: replace_nth i' x l'
  end.

Definition set_checked (e : element) (b : bool) : element :=
  mkElement (tagName e) (type e) (name_attr e) (id_attr e) (value e) b (multiple e) (options e)
            (form_attr e) (nested e) (owner e) (past_names e).

Definition set_value (e : element) (s : string) : element :=
  mkElement (tagName e) (type e) (name_attr e) (id_attr e) s (checked e) (multiple e) (options e)
            (form_attr e) (nested e) (owner e) (past_names e).

Definition set_options (e : element) (os : list option_el) : element :=
  mkElement (tagName e) (type e) (name_attr e) (id_attr e) (value e) (checked e) (multiple e) os
            (form_attr e) (nested e) (owner e) (past_names e).

Definition set_past_names (e : element) (ns : list string) : element :=
  mkElement (tagName e) (type e) (name_attr e) (id_attr e) (value e) (checked e) (multiple e)
            (options e) (form_attr e) (nested e) (owner e) ns.

(** ** JS objects used as dictionaries

    A record, the value-function table and the like are association lists;
    the object they stand for has the keys of the list, each bound to its
    first binding. *)

(** A JS object from names to arrays of values. *)
Definition record := list (string * list jval).

(** [k] is an own key of [o]. *)
Definition has_key {A} (k : string) (o : list (string * A)) : bool :=
  existsb (fun p => String.eqb (fst p) k) o.

(** [o[k]] for an own key [k]. *)
Fixpoint get {A} (k : string) (o : list (string * A)) : option A :=
  match o with
  | [] => None
  | (k', v) :: o' => if String.eqb k' k then Some v else get k o'
  end.

(** [data[key].push(v)] on an own key. *)
Fixpoint push (k : string) (v : jval) (r : record) : record :=
  match r with
  | [] => []
  | (k', vs) :: r' =>
      if String.eqb k' k then (k', vs ++ [v]) :: r' else (k', vs) :: push k v r'
  end.

(** The properties an ordinary object inherits from [Object.prototype]. *)
Definition object_prototype_names : list string :=
  ["constructor"; "__defineGetter__"; "__defineSetter__"; "hasOwnProperty";
   "__lookupGetter__"; "__lookupSetter__"; "isPrototypeOf"; "propertyIsEnumerable";
   "toString"; "valueOf"; "__proto__"; "toLocaleString"].

Definition is_prototype_name (k : string) : bool :=
  existsb (String.eqb k) object_prototype_names.

(** [k in o] *)
Definition js_in {A} (k : string) (o : list (string * A)) : bool :=
  has_key k o || is_prototype_name k.

Definition first_step (acc : list string) (x : string) : list string :=
  if existsb (String.eqb x) acc then acc else acc ++ [x].

(** The distinct strings of [l], in the order of their first occurrence. *)
Definition first_occurrences (l : list string) : list string := fold_left first_step l [].

Fixpoint digits_value (cs : list ascii) (acc : N) : option N :=
  match cs with
  | [] => Some acc
  | c :: cs' =>
      let n := N_of_ascii c in
      if (48 <=? n)%N && (n <=? 57)%N then digits_value cs' (acc * 10 + (n - 48))%N else None
  end.

(** The value of an array-index key: a canonical decimal numeral (no
    leading zero) below [2^32 - 1]. *)
Definition array_index (k : string) : option N :=
  match list_ascii_of_string k with
  | [] => None
  | c :: cs =>
      if (N_of_ascii c =? 48)%N && negb (match cs with [] => true | _ => false end) then None
      else match digits_value (c :: cs) 0 with
           | Some n => if (n <=? 4294967294)%N then Some n else None
           | None => None
           end
  end.

Fixpoint insert_index (k : string) (n : N) (l : list (string * N)) : list (string * N) :=
  match l with
  | [] => [(k, n)]
  | (k', n') :: l' => if (n <? n')%N then (k, n) :: l else (k', n') :: insert_index k n l'
  end.

Definition is_array_index (k : string) : bool :=
  match array_index k with Some _ => true | None => false end.

(** The order of [for (k in o)] over the own keys: array indices in
    ascending numeric order, then the other keys in creation order. *)
Definition own_keys {A} (o : list (string * A)) : list string :=
  let ks := first_occurrences (map fst o) in
  map fst (fold_left (fun acc k => match array_index k with
                                   | Some n => insert_index k n acc
                                   | None => acc
                                   end) ks [])
  ++ filter (fun k => negb (is_array_index k)) ks.

(** ** The page: document, storage areas, and an event log *)

(** A storage area: string keys to string values. *)
Definition storage := list (string * string).

Fixpoint getItem (k : string) (s : storage) : option string :=
  match s with
  | [] => None
  | (k', v) :: s' => if String.eqb k' k then Some v else getItem k s'
  end.

Fixpoint setItem (k v : string) (s : storage) : storage :=
  match s with
  | [] => [(k, v)]
  | (k', v') :: s' => if String.eqb k' k then (k', v) :: s' else (k', v') :: setItem k v s'
  end.

Definition removeItem (k : string) (s : storage) : storage :=
  filter (fun p => negb (String.eqb (fst p) k)) s.

(** The queries [getFormElements] issues: [form.querySelectorAll] with the
    optional [name] value, and [document.querySelectorAll] with the same
    value and the text [`${form.id}`] gives in each of its three selectors. *)
Inductive query :=
| QueryForm (sel : option string)
| QueryDocument (sel : option string) (form_refs : list string).

(** Observable events: storage accesses ([session] selects
    [sessionStorage]), calls of a value function, default writes of
    [applyValues] to the element at a position (with its [name] attribute),
    and the queries of the resolver. *)
Inductive event :=
| EGetItem (session : bool) (key : string)
| ESetItem (session : bool) (key val : string)
| ERemoveItem (session : bool) (key : string)
| ECall (fn : string) (v : jval)
| EWrite (pos : nat) (nm : option string)
| EQuery (q : query).

Record world := mkWorld {
  w_doc : doc;
  w_local : storage;
  w_session : storage;
  w_log : list event;
  w_listeners : list string    (** window/form event listeners registered *)
}.

(** Exceptions:
    - [ConfigError]: the missing-identity [Error] of [getStorageKey];
    - [InvalidStateError]: assigning a non-empty value to a file input;
    - [SyntaxError]: [JSON.parse] on text that is not JSON;
    - [SelectorSyntaxError]: the [SyntaxError] of [querySelectorAll] on a
      selector that does not parse (a raw newline inside a quoted value);
    - [TypeError]: calling or iterating a value that is neither a function
      nor iterable (an [Object.prototype] property, or a named element that
      overrides a method);
    - [UnparsedSelector]: a quoted value that ends the CSS string before the
      closing quote the code writes (an unescaped double quote in it, or a final
      backslash escaping that quote); the rest of the selector text is then
      read as selector syntax, which this development does not parse, so the
      run stops there with this outcome and no statement about such a run
      is made past it. *)
Inductive error :=
| ConfigError
| InvalidStateError
| SyntaxError
| SelectorSyntaxError
| TypeError
| UnparsedSelector.

Inductive result (A : Type) :=
| Ok (a : A) (w : world)
| Err (e : error) (w : world).
Arguments Ok {A} a w.
Arguments Err {A} e w.

(** A state and exception monad over the page. *)
Definition M (A : Type) := world -> result A.

Definition ret {A} (a : A) : M A := fun w => Ok a w.
Definition bind {A B} (m : M A) (k : A -> M B) : M B :=
  fun w => match m w with Ok a w' => k a w' | Err e w' => Err e w' end.
Definition throw {A} (e : error) : M A := fun w => Err e w.

Notation "'do' x <- m ; k" := (bind m (fun x => k))
  (at level 60, x name, m at next level, right associativity).
Notation "m ;; k" := (bind m (fun _ => k)) (at level 60, right associativity).

Definition get_doc : M doc := fun w => Ok (w_doc w) w.
Definition put_doc (d : doc) : M unit :=
  fun w => Ok tt (mkWorld d (w_local w) (w_session w) (w_log w) (w_listeners w)).
Definition emit (ev : event) : M unit :=
  fun w => Ok tt (mkWorld (w_doc w) (w_local w) (w_session w) (w_log w ++ [ev]) (w_listeners w)).
Definition get_storage (session : bool) : M storage :=
  fun w => Ok (if session then w_session w else w_local w) w.
Definition put_storage (session : bool) (s : storage) : M unit :=
  fun w => Ok tt (if session then mkWorld (w_doc w) (w_local w) s (w_log w) (w_listeners w)
                  else mkWorld (w_doc w) s (w_session w) (w_log w) (w_listeners w)).

(** [for (x of xs) body(x)] *)
Fixpoint for_each {A} (xs : list A) (body : A -> M unit) : M unit :=
  match xs with
  | [] => ret tt
  | x :: xs' => body x ;; for_each xs' body
  end.

(** [xs.forEach((x, i) => body(x, i))], [i] counting from [n]. *)
Fixpoint for_each_i {A} (xs : list A) (n : nat) (body : A -> nat -> M unit) : M unit :=
  match xs with
  | [] => ret tt
  | x :: xs' => body x n ;; for_each_i xs' (S n) body
  end.

(** [xs.map(g)] with an effectful [g]. *)
Fixpoint map_m {A B} (g : A -> M B) (xs : list A) : M (list B) :=
  match xs with
  | [] => ret []
  | x :: xs' => do y <- g x; do ys <- map_m g xs'; ret (y :: ys)
  end.

(** ** Named properties of the form and of the document *)

(** Listed elements ([form.elements] excludes image inputs). *)
Definition listed (e : element) : bool :=
  match tagName e with
  | INPUT => negb (String.eqb (type e) "image")
  | TEXTAREA | SELECT => true
  | OTHER t => existsb (String.eqb t) ["BUTTON"; "FIELDSET"; "OBJECT"; "OUTPUT"]
  end.

Definition named_or_id (nm : string) (e : element) : bool :=
  attr_is (name_attr e) nm || attr_is (id_attr e) nm.

(** The candidates for the form's named property [nm]: its listed elements
    with that id or name, or failing those its [img] elements. *)
Definition form_candidates (d : doc) (nm : string) : list nat :=
  match querySelectorAll (fun e => listed e && is_this_form e && named_or_id nm e) d with
  | [] => querySelectorAll (fun e => is_tag "IMG" e && is_this_form e && named_or_id nm e) d
  | ps => ps
  end.

(** The element the past-names map holds for [nm]. *)
Definition past_lookup (d : doc) (nm : string) : option nat :=
  match querySelectorAll (fun e => is_this_form e && existsb (String.eqb nm) (past_names e)) d with
  | p :: _ => Some p
  | [] => None
  end.

(** The value of a named property: an element, or a [RadioNodeList]. *)
Inductive named_value :=
| NamedElement (p : nat)
| NamedList (ps : list nat).

(** [form[nm]] when [nm] is a supported property name of the form. *)
Definition form_named (d : doc) (nm : string) : option named_value :=
  match form_candidates d nm with
  | [] => option_map NamedElement (past_lookup d nm)
  | [p] => Some (NamedElement p)
  | ps => Some (NamedList ps)
  end.

(** The named getter records a single candidate in the past-names map,
    dropping any older entry for [nm]. *)
Definition remember (d : doc) (nm : string) : doc :=
  match form_candidates d nm with
  | [p] =>
      map_positions (fun q e =>
        if is_this_form e then
          set_past_names e ((if Nat.eqb q p then [nm] else [])
                            ++ filter (fun n => negb (String.eqb n nm)) (past_names e))
        else e) 0 d
  | _ => d
  end.

(** [form[nm]] for a name the form's interface defines ([id],
    [querySelectorAll], [elements], [addEventListener]): the form has
    [LegacyOverrideBuiltIns], so a named property hides the member. *)
Definition form_lookup (nm : string) : M (option named_value) :=
  do d <- get_doc;
  put_doc (remember d nm) ;;
  ret (form_named d nm).

(** A JS value read from a property: a string or a platform object of the
    given class. *)
Inductive js_prop :=
| PString (s : string)
| PObject (cls : string).

Definition js_truthy (v : js_prop) : bool :=
  match v with PString s => truthy s | PObject _ => true end.

(** [String(v)] *)
Definition js_to_string (v : js_prop) : string :=
  match v with
  | PString s => s
  | PObject c => String.append "[object " (String.append c "]")
  end.

Definition interface_name (e : element) : string :=
  match tagName e with
  | INPUT => "HTMLInputElement"
  | TEXTAREA => "HTMLTextAreaElement"
  | SELECT => "HTMLSelectElement"
  | OTHER t =>
      if String.eqb t "BUTTON" then "HTMLButtonElement"
      else if String.eqb t "FIELDSET" then "HTMLFieldSetElement"
      else if String.eqb t "OBJECT" then "HTMLObjectElement"
      else if String.eqb t "OUTPUT" then "HTMLOutputElement"
      else if String.eqb t "IMG" then "HTMLImageElement"
      else "HTMLElement"
  end.

Definition named_object (d : doc) (v : named_value) : js_prop :=
  match v with
  | NamedElement p =>
      PObject (match nth_error d p with Some e => interface_name e | None => "HTMLElement" end)
  | NamedList _ => PObject "RadioNodeList"
  end.

(** [form.id] *)
Definition read_form_id (f : form) : M js_prop :=
  do v <- form_lookup "id";
  do d <- get_doc;
  ret (match v with Some v => named_object d v | None => PString (form_id f) end).

(** [nm] is a named property of the document that hides a member: a form,
    embed, iframe, img or object with that name, an object with that id, or
    an img with that id and a non-empty name.  Every embed and object of the
    page counts as exposed. *)
Definition document_named (f : form) (d : doc) (nm : string) : bool :=
  attr_is (form_name f) nm
  || existsb (fun e =>
       (existsb (fun t => is_tag t e) ["EMBED"; "FORM"; "IFRAME"; "IMG"; "OBJECT"]
        && attr_is (name_attr e) nm)
       || (is_tag "OBJECT" e && attr_is (id_attr e) nm)
       || (is_tag "IMG" e && attr_is (id_attr e) nm
           && match name_attr e with Some n => truthy n | None => false end)) d.

(** ** CSS strings in the resolver's selectors *)

(** A string as code points. *)
Definition code_points (s : string) : list N := map N_of_ascii (list_ascii_of_string s).

Fixpoint cps_eqb (a b : list N) : bool :=
  match a, b with
  | [], [] => true
  | x :: a', y :: b' => (x =? y)%N && cps_eqb a' b'
  | _, _ => false
  end.

(** Input preprocessing: CR LF, CR and FF become LF, NUL becomes U+FFFD. *)
Fixpoint css_preprocess (cs : list N) : list N :=
  match cs with
  | [] => []
  | c :: cs' =>
      if (c =? 13)%N then
        match cs' with
        | c' :: cs'' => if (c' =? 10)%N then 10%N :: css_preprocess cs''
                        else 10%N :: css_preprocess cs'
        | [] => [10%N]
        end
      else if (c =? 12)%N then 10%N :: css_preprocess cs'
      else if (c =? 0)%N then 65533%N :: css_preprocess cs'
      else c :: css_preprocess cs'
  end.

Definition is_hex_digit (c : N) : bool :=
  ((48 <=? c) && (c <=? 57))%N || ((65 <=? c) && (c <=? 70))%N || ((97 <=? c) && (c <=? 102))%N.

Definition hex_digit_value (c : N) : N :=
  if (c <=? 57)%N then (c - 48)%N else if (c <=? 70)%N then (c - 55)%N else (c - 87)%N.

(** The code point of a hex escape: zero, a surrogate or a value past
    U+10FFFF gives U+FFFD. *)
Definition escaped_code_point (v : N) : N :=
  if (v =? 0)%N || ((55296 <=? v) && (v <=? 57343))%N || (1114111 <? v)%N then 65533%N else v.

(** How a quoted value reads as a CSS string token. *)
Inductive css_string :=
| CssValue (cps : list N)   (** the string ends at the closing quote *)
| CssBadString              (** a raw newline: a bad string *)
| CssOpenString.            (** the string ends before the closing quote *)

(** The tokenizer inside a string: plain text, after a backslash, or in a
    hex escape of [n] digits so far. *)
Inductive css_state :=
| SNormal
| SEscape
| SHex (v : N) (n : nat).

(** The code points of the value [cs] of ["cs"], the closing quote being the
    one the code writes after it. *)
Fixpoint css_string_body (st : css_state) (cs : list N) (acc : list N) : css_string :=
  match cs with
  | [] =>
      match st with
      | SNormal => CssValue acc
      | SEscape => CssOpenString
      | SHex v _ => CssValue (acc ++ [escaped_code_point v])
      end
  | c :: cs' =>
      match st with
      | SNormal =>
          if (c =? 34)%N then CssOpenString
          else if (c =? 92)%N then css_string_body SEscape cs' acc
          else if (c =? 10)%N then CssBadString
          else css_string_body SNormal cs' (acc ++ [c])
      | SEscape =>
          if (c =? 10)%N then css_string_body SNormal cs' acc
          else if is_hex_digit c then css_string_body (SHex (hex_digit_value c) 1) cs' acc
          else css_string_body SNormal cs' (acc ++ [c])
      | SHex v n =>
          if is_hex_digit c && Nat.ltb n 6 then
            css_string_body (SHex (v * 16 + hex_digit_value c)%N (S n)) cs' acc
          else if (c =? 10)%N || (c =? 9)%N || (c =? 32)%N then
            css_string_body SNormal cs' (acc ++ [escaped_code_point v])
          else
            let acc := acc ++ [escaped_code_point v] in
            if (c =? 34)%N then CssOpenString
            else if (c =? 92)%N then css_string_body SEscape cs' acc
            else css_string_body SNormal cs' (acc ++ [c])
      end
  end.

Definition css_value (s : string) : css_string :=
  css_string_body SNormal (css_preprocess (code_points s)) [].

(** The value of [[a="s"]] as the selector parser reads it. *)
Definition attribute_value (s : string) : M (list N) :=
  match css_value s with
  | CssValue cps => ret cps
  | CssBadString => throw SelectorSyntaxError
  | CssOpenString => throw UnparsedSelector
  end.

(** [[a="v"]] on an attribute [a] of an element (no test when [v] is
    absent). *)
Definition attr_test (v : option (list N)) (a : option string) : bool :=
  match v with
  | None => true
  | Some cps => match a with Some s => cps_eqb (code_points s) cps | None => false end
  end.

(** ** Element resolver: [getFormElements] *)

(** The tags [input], [textarea], [select] of the selector lists. *)
Definition tags : list tag := [INPUT; TEXTAREA; SELECT].

Definition recognized (e : element) : bool :=
  existsb (tag_eqb (tagName e)) tags.

(** [tag[name="v"][form="id"]] for the three tags, each with its own [id]. *)
Definition external_test (v : option (list N)) (ids : list (list N)) (e : element) : bool :=
  existsb (fun p => tag_eqb (tagName e) (fst p) && attr_test v (name_attr e)
                    && attr_test (Some (snd p)) (form_attr e)) (combine tags ids).

Definition selector_value (sel : option string) : M (option (list N)) :=
  match sel with
  | None => ret None
  | Some s => do cps <- attribute_value s; ret (Some cps)
  end.

(** [getFormElements(form, skipExternal, 'name', value)], [sel] being the
    value ([None] when no attribute is given). *)
Definition getFormElements (f : form) (skipExternal : bool) (sel : option string)
    : M (list nat) :=
  do qsa <- form_lookup "querySelectorAll";
  match qsa with
  | Some _ => throw TypeError
  | None =>
      emit (EQuery (QueryForm sel)) ;;
      do v <- selector_value sel;
      do d <- get_doc;
      let elements :=
        querySelectorAll (fun e => nested e && recognized e && attr_test v (name_attr e)) d in
      do external <-
        (if skipExternal then ret false
         else do id <- read_form_id f; ret (js_truthy id));
      if external then
        do ids <- map_m (fun _ => read_form_id f) tags;
        do d <- get_doc;
        if document_named f d "querySelectorAll" then throw TypeError
        else
          let refs := map js_to_string ids in
          emit (EQuery (QueryDocument sel refs)) ;;
          do idvs <- map_m attribute_value refs;
          ret (elements ++ querySelectorAll (external_test v idvs) d)
      else ret elements
  end.

(** ** [serialize] (form-persistence.js) *)

(** [data[key].push(v)] after [key in data]: an inherited key holds a
    function of [Object.prototype], which has no [push]. *)
Definition js_push (k : string) (v : jval) (data : record) : error + record :=
  if has_key k data then inr (push k v data) else inl TypeError.

(** [for (option of options) if (option.selected) data[name].push(option.value)] *)
Fixpoint push_selected (k : string) (os : list option_el) (data : record) : error + record :=
  match os with
  | [] => inr data
  | o :: os' =>
      if selected o then
        match js_push k (JStr (opt_value o)) data with
        | inl err => inl err
        | inr data => push_selected k os' data
        end
      else push_selected k os' data
  end.

(** One iteration of the loop of [serialize] on [element]. *)
Definition serialize_element (data : record) (e : element) : error + record :=
  if is_input e && (String.eqb (type e) "password" || String.eqb (type e) "file")
  then inr data  (* do not serialize passwords or files *)
  else
    let data := if js_in (name e) data then data else data ++ [(name e, [])] in
    match tagName e with
    | INPUT =>
        if String.eqb (type e) "radio" then
          if checked e then js_push (name e) (JStr (value e)) data else inr data
        else if String.eqb (type e) "checkbox" then js_push (name e) (JBool (checked e)) data
        else js_push (name e) (JStr (value e)) data
    | TEXTAREA => js_push (name e) (JStr (value e)) data
    | SELECT =>
        if multiple e then push_selected (name e) (options e) data
        else js_push (name e) (JStr (select_value e)) data
    | OTHER _ => inr data
    end.

(** The loop of [serialize] over the elements at positions [is]. *)
Fixpoint serialize_loop (d : doc) (is : list nat) (data : record) : error + record :=
  match is with
  | [] => inr data
  | i :: is' =>
      match nth_error d i with
      | Some e =>
          match serialize_element data e with
          | inl err => inl err
          | inr data => serialize_loop d is' data
          end
      | None => serialize_loop d is' data
      end
  end.

(** [serialize(form, {skipExternal})] *)
Definition serialize (f : form) (skipExternal : bool) : M record :=
  do elements <- getFormElements f skipExternal None;
  do d <- get_doc;
  match serialize_loop d elements [] with
  | inl err => throw err
  | inr data => ret data
  end.

(** ** [applyValues] *)

(** [String(v)] for [v = values[i]] ([undefined] when out of range). *)
Definition to_js_string (v : option jval) : string :=
  match v with
  | Some (JStr s) => s
  | Some (JBool true) => "true"
  | Some (JBool false) => "false"
  | None => "undefined"
  end.

(** [Boolean(v)] *)
Definition to_boolean (v : option jval) : bool :=
  match v with
  | Some (JStr s) => truthy s
  | Some (JBool b) => b
  | None => false
  end.

(** [s === v] for a string [s] *)
Definition strict_eq_str (s : string) (v : option jval) : bool :=
  match v with Some (JStr s') => String.eqb s s' | _ => false end.

(** [values.includes(s)] for a string [s] *)
Definition includes (values : list jval) (s : string) : bool :=
  existsb (fun v => strict_eq_str s (Some v)) values.

Definition is_radio (e : element) : bool := is_input e && String.eqb (type e) "radio".

(** Two radio buttons of one group: same form owner, same non-empty
    name. *)
Definition same_radio_group (a b : element) : bool :=
  is_radio a && is_radio b && owner_eqb (owner a) (owner b)
  && match name_attr a, name_attr b with
     | Some x, Some y => truthy x && String.eqb x y
     | _, _ => false
     end.

(** [radio.checked = b] on the radio [e] at position [pos]: checking it
    unchecks every other radio of its group. *)
Definition check_radio (d : doc) (pos : nat) (e : element) (b : bool) : doc :=
  let d := replace_nth pos (set_checked e b) d in
  if b then
    map_positions (fun q e' => if negb (Nat.eqb q pos) && same_radio_group e e'
                               then set_checked e' false else e') 0 d
  else d.

Definition is_newline (a : ascii) : bool :=
  Ascii.eqb a (ascii_of_nat 10) || Ascii.eqb a (ascii_of_nat 13).

Definition is_ascii_whitespace (a : ascii) : bool :=
  existsb (fun n => Ascii.eqb a (ascii_of_nat n)) [9; 10; 12; 13; 32].

(** Strip newlines from [s]. *)
Definition strip_newlines (s : string) : string :=
  string_of_list_ascii (filter (fun a => negb (is_newline a)) (list_ascii_of_string s)).

Fixpoint drop_leading_ws (cs : list ascii) : list ascii :=
  match cs with
  | [] => []
  | c :: cs' => if is_ascii_whitespace c then drop_leading_ws cs' else cs
  end.

(** Strip leading and trailing ASCII whitespace from [s]. *)
Definition strip_ws (s : string) : string :=
  string_of_list_ascii (rev (drop_leading_ws (rev (drop_leading_ws (list_ascii_of_string s))))).

(** Split on commas: each token is stripped of surrounding whitespace; a
    final comma starts no token. *)
Fixpoint split_commas_from (cs : list ascii) (tok : list ascii) : list (list ascii) :=
  match cs with
  | [] => [tok]
  | c :: cs' =>
      if Ascii.eqb c ","%char then
        match cs' with
        | [] => [tok]
        | _ => tok :: split_commas_from cs' []
        end
      else split_commas_from cs' (tok ++ [c])
  end.

Definition split_commas (s : string) : list string :=
  match list_ascii_of_string s with
  | [] => []
  | cs => map (fun t => strip_ws (string_of_list_ascii t)) (split_commas_from cs [])
  end.

Fixpoint join_commas (l : list string) : string :=
  match l with
  | [] => ""
  | [x] => x
  | x :: l' => String.append x (String.append "," (join_commas l'))
  end.

(** Newline normalization of [textarea.value]: CR LF and CR become LF. *)
Fixpoint normalize_newlines_list (cs : list ascii) : list ascii :=
  match cs with
  | [] => []
  | c :: cs' =>
      if Ascii.eqb c (ascii_of_nat 13) then
        match cs' with
        | c' :: cs'' => if Ascii.eqb c' (ascii_of_nat 10)
                        then ascii_of_nat 10 :: normalize_newlines_list cs''
                        else ascii_of_nat 10 :: normalize_newlines_list cs'
        | [] => [ascii_of_nat 10]
        end
      else c :: normalize_newlines_list cs'
  end.

Definition normalize_newlines (s : string) : string :=
  string_of_list_ascii (normalize_newlines_list (list_ascii_of_string s)).

(** [select.value = s]: every option is deselected, then the first option
    whose value is [s], if any, is selected. *)
Fixpoint select_first (s : string) (os : list option_el) : list option_el :=
  match os with
  | [] => []
  | o :: os' =>
      if String.eqb (opt_value o) s
      then mkOption (opt_value o) true :: map (fun o => mkOption (opt_value o) false) os'
      else mkOption (opt_value o) false :: select_first s os'
  end.

(** [handler]: a value function [fn(form, value)], user code that may change
    the page's document (e.g. create controls); it is a total function of
    the document. *)
Definition handler := jval -> doc -> doc.

(** The options object after [Object.assign(defaults, options)]. *)
Record config := mkConfig {
  uuid : option string;
  useSessionStorage : bool;
  saveOnSubmit : bool;
  valueFunctions : option (list (string * handler));
  skipExternal : bool
}.

Definition defaults : config := mkConfig None false false None false.

(** [valueFunctions[fnName](form, value)] *)
Definition call_handler (fnName : string) (fn : handler) (v : jval) : M unit :=
  emit (ECall fnName v) ;;
  do d <- get_doc;
  put_doc (fn v d).

(** [data[name]] for a key [name] of [data]. *)
Definition values_of (data : record) (nm : string) : list jval :=
  match get nm data with Some vs => vs | None => [] end.

(** [valueFunctions[fnName]] for a key of the table. *)
Definition handler_of (vf : list (string * handler)) (fnName : string) : handler :=
  match get fnName vf with Some h => h | None => fun _ d => d end.

(** [for (let value of data[fnName])] after [fnName in data]: an inherited
    key holds a function, which is not iterable. *)
Definition iterate_values (data : record) (fnName : string) : M (list jval) :=
  match get fnName data with
  | Some vs => ret vs
  | None => throw TypeError
  end.

Section Page.

(** The value sanitization of the input types with a parsing algorithm
    (number, range, color, date, month, week, time, datetime-local), which
    this development leaves open. *)
Variable sanitize_other : element -> string -> string.

(** [input.value = s] on a control in value mode runs the sanitization of
    its type; in default mode it sets the [value] attribute; a file input
    only accepts the empty string. *)
Definition sanitize (e : element) (s : string) : error + string :=
  let t := type e in
  if existsb (String.eqb t) ["text"; "search"; "tel"; "password"] then inr (strip_newlines s)
  else if String.eqb t "url" then inr (strip_ws (strip_newlines s))
  else if String.eqb t "email" then
    if multiple e then inr (join_commas (split_commas s)) else inr (strip_ws (strip_newlines s))
  else if existsb (String.eqb t) ["hidden"; "submit"; "image"; "reset"; "button"] then inr s
  else if String.eqb t "file" then (if truthy s then inl InvalidStateError else inr s)
  else inr (sanitize_other e s).

(** The assignments [applyValues(element, values, index)] makes to the
    element [e] at position [pos] of [d]. *)
Definition apply_values (d : doc) (pos : nat) (e : element) (values : list jval) (index : nat)
    : error + doc :=
  match tagName e with
  | INPUT =>
      if String.eqb (type e) "radio" then
        inr (check_radio d pos e (strict_eq_str (value e) (nth_error values 0)))
      else if String.eqb (type e) "checkbox" then
        inr (replace_nth pos (set_checked e (to_boolean (nth_error values 0))) d)
      else
        match sanitize e (to_js_string (nth_error values index)) with
        | inl err => inl err
        | inr s => inr (replace_nth pos (set_value e s) d)
        end
  | TEXTAREA =>
      inr (replace_nth pos (set_value e (normalize_newlines (to_js_string (nth_error values index)))) d)
  | SELECT =>
      if multiple e then
        inr (replace_nth pos (set_options e (map (fun o => mkOption (opt_value o)
                                                        (includes values (opt_value o)))
                                                  (options e))) d)
      else inr (replace_nth pos (set_options e (select_first (to_js_string (nth_error values index))
                                                            (options e))) d)
  | OTHER _ => inr d
  end.

(** [applyValues(input, values, index)] on the element at position [pos]. *)
Definition applyValues (pos : nat) (values : list jval) (index : nat) : M unit :=
  do d <- get_doc;
  match nth_error d pos with
  | None => ret tt
  | Some e =>
      emit (EWrite pos (name_attr e)) ;;
      match apply_values d pos e values index with
      | inl err => throw err
      | inr d' => put_doc d'
      end
  end.

(** ** [deserialize] (form-persistence.js) *)

(** The loop of [applySpecialHandlers(data, form, valueFunctions)] over the
    keys [ks] of the table; [speciallyHandled] is the accumulated array of
    handled names. *)
Fixpoint apply_handlers_loop (data : record) (vf : list (string * handler)) (ks : list string)
    (speciallyHandled : list string) : M (list string) :=
  match ks with
  | [] => ret speciallyHandled
  | fnName :: ks' =>
      if js_in fnName data then
        do vs <- iterate_values data fnName;
        for_each vs (call_handler fnName (handler_of vf fnName)) ;;
        apply_handlers_loop data vf ks' (speciallyHandled ++ [fnName])
      else apply_handlers_loop data vf ks' speciallyHandled
  end.

Definition applySpecialHandlers (data : record) (vf : list (string * handler)) : M (list string) :=
  apply_handlers_loop data vf (own_keys vf) [].

(** The default restoration of one name: the inputs are resolved afresh. *)
Definition restore_name (f : form) (cfg : config) (data : record) (nm : string) : M unit :=
  do inputs <- getFormElements f (skipExternal cfg) (Some nm);
  for_each_i inputs 0 (fun input i => applyValues input (values_of data nm) i).

(** [deserialize(form, data, options)] *)
Definition deserialize (f : form) (data : record) (cfg : config) : M unit :=
  do speciallyHandled <-
    match valueFunctions cfg with
    | None => ret []
    | Some vf => applySpecialHandlers data vf
    end;
  for_each (own_keys data) (fun nm =>
    if existsb (String.eqb nm) speciallyHandled then ret tt
    else restore_name f cfg data nm).

(** ** Storage wrappers *)

Definition storage_getItem (session : bool) (k : string) : M (option string) :=
  emit (EGetItem session k) ;;
  do s <- get_storage session;
  ret (getItem k s).

Definition storage_setItem (session : bool) (k v : string) : M unit :=
  emit (ESetItem session k v) ;;
  do s <- get_storage session;
  put_storage session (setItem k v s).

Definition storage_removeItem (session : bool) (k : string) : M unit :=
  emit (ERemoveItem session k) ;;
  do s <- get_storage session;
  put_storage session (removeItem k s).

Definition uuid_string (u : option string) : string :=
  match u with Some s => s | None => "" end.

(** [getStorageKey(form, uuid)]; [uuid] is [null] ([None]) or a string:
    [!uuid && !form.id], then ['form#' + (uuid ? uuid : form.id)]. *)
Definition getStorageKey (f : form) (u : option string) : M string :=
  do missing <-
    (if truthy (uuid_string u) then ret false
     else do id <- read_form_id f; ret (negb (js_truthy id)));
  if missing then throw ConfigError
  else
    do k <- (if truthy (uuid_string u) then ret (uuid_string u)
             else do id <- read_form_id f; ret (js_to_string id));
    ret (String.append "form#" k).

(** [JSON.stringify] and [JSON.parse] on records; [JSON.parse] fails on
    text that is not JSON. *)
Variable json_stringify : record -> string.
Variable json_parse : string -> option record.

(** [save(form, options)] *)
Definition save (f : form) (cfg : config) : M unit :=
  do data <- serialize f (skipExternal cfg);
  do key <- getStorageKey f (uuid cfg);
  storage_setItem (useSessionStorage cfg) key (json_stringify data).

(** [load(form, options)] *)
Definition load (f : form) (cfg : config) : M unit :=
  do key <- getStorageKey f (uuid cfg);
  do json <- storage_getItem (useSessionStorage cfg) key;
  match json with
  | Some j =>
      if truthy j then
        match json_parse j with
        | Some data => deserialize f data cfg
        | None => throw SyntaxError
        end
      else ret tt
  | None => ret tt
  end.

(** [clearStorage(form, options)] *)
Definition clearStorage (f : form) (cfg : config) : M unit :=
  do key <- getStorageKey f (uuid cfg);
  storage_removeItem (useSessionStorage cfg) key.


End Page.

(** ** The filtered revision of the module (include / exclude lists)

    This revision iterates [form.elements] and filters names with
    [isNameFiltered]; its [applyValues] is the one above. *)
Module Filtered.

(** The listed elements whose form owner is the form. *)
Definition form_elements (d : doc) : list nat :=
  querySelectorAll (fun e => listed e && is_this_form e) d.

(** The elements [for (element of form.elements)] visits: the collection,
    or a named property [elements] of the form; iterating a select visits
    its options, which neither loop acts on (an option has no [name] and
    tag [OPTION]), and any other single element is not iterable. *)
Definition read_elements : M (list nat) :=
  do v <- form_lookup "elements";
  do d <- get_doc;
  match v with
  | None => ret (form_elements d)
  | Some (NamedList ps) => ret ps
  | Some (NamedElement p) =>
      match nth_error d p with
      | Some e => match tagName e with SELECT => ret [] | _ => throw TypeError end
      | None => throw TypeError
      end
  end.

(** [isNameFiltered(name, include, exclude)] *)
Definition isNameFiltered (nm : string) (include exclude : list string) : bool :=
  if negb (truthy nm) then true
  else if existsb (String.eqb nm) exclude then true
  else if Nat.ltb 0 (List.length include) && negb (existsb (String.eqb nm) include) then true
  else false.

(** [pushToArray(dict, key, value)] *)
Definition pushToArray (dict : record) (key : string) (v : jval) : error + record :=
  js_push key v (if js_in key dict then dict else dict ++ [(key, [])]).

Fixpoint push_selected (key : string) (os : list option_el) (data : record) : error + record :=
  match os with
  | [] => inr data
  | o :: os' =>
      if selected o then
        match pushToArray data key (JStr (opt_value o)) with
        | inl err => inl err
        | inr data => push_selected key os' data
        end
      else push_selected key os' data
  end.

(** One iteration of the loop of [serialize]. *)
Definition serialize_element (include exclude : list string) (data : record) (e : element)
    : error + record :=
  if is_input e && (String.eqb (type e) "password" || String.eqb (type e) "file")
  then inr data
  else if isNameFiltered (name e) include exclude then inr data
  else
    match tagName e with
    | INPUT =>
        if String.eqb (type e) "radio" then
          if checked e then pushToArray data (name e) (JStr (value e)) else inr data
        else if String.eqb (type e) "checkbox" then pushToArray data (name e) (JBool (checked e))
        else pushToArray data (name e) (JStr (value e))
    | TEXTAREA => pushToArray data (name e) (JStr (value e))
    | SELECT =>
        if multiple e then push_selected (name e) (options e) data
        else pushToArray data (name e) (JStr (select_value e))
    | OTHER _ => inr data
    end.

Fixpoint serialize_loop (include exclude : list string) (d : doc) (is : list nat) (data : record)
    : error + record :=
  match is with
  | [] => inr data
  | i :: is' =>
      match nth_error d i with
      | Some e =>
          match serialize_element include exclude data e with
          | inl err => inl err
          | inr data => serialize_loop include exclude d is' data
          end
      | None => serialize_loop include exclude d is' data
      end
  end.

(** [serialize(form, {include, exclude})] *)
Definition serialize (include exclude : list string) : M record :=
  do elements <- read_elements;
  do d <- get_doc;
  match serialize_loop include exclude d elements [] with
  | inl err => throw err
  | inr data => ret data
  end.

(** The loop of [applySpecialHandlers(data, form, options)]. *)
Fixpoint apply_handlers_loop (data : record) (vf : list (string * handler))
    (include exclude : list string) (ks : list string) (speciallyHandled : list string)
    : M (list string) :=
  match ks with
  | [] => ret speciallyHandled
  | fnName :: ks' =>
      if js_in fnName data then
        if isNameFiltered fnName include exclude then
          apply_handlers_loop data vf include exclude ks' speciallyHandled
        else
          do vs <- iterate_values data fnName;
          for_each vs (call_handler fnName (handler_of vf fnName)) ;;
          apply_handlers_loop data vf include exclude ks' (speciallyHandled ++ [fnName])
      else apply_handlers_loop data vf include exclude ks' speciallyHandled
  end.

Definition applySpecialHandlers (data : record) (vf : list (string * handler))
    (include exclude : list string) : M (list string) :=
  apply_handlers_loop data vf include exclude (own_keys vf) [].

(** [[...form.elements].filter(elem => elem.name === name)] *)
Definition elements_named (els : list nat) (nm : string) (d : doc) : list nat :=
  filter (fun i => match nth_error d i with
                   | Some e => String.eqb (name e) nm
                   | None => false
                   end) els.

Definition restore_name (sanitize_other : element -> string -> string) (data : record)
    (nm : string) : M unit :=
  do els <- read_elements;
  do d <- get_doc;
  for_each_i (elements_named els nm d) 0
    (fun input i => applyValues sanitize_other input (values_of data nm) i).

(** [deserialize(form, data, {valueFunctions, include, exclude})]; the form
    is the one whose elements have the owner [ThisForm]. *)
Definition deserialize (sanitize_other : element -> string -> string) (data : record)
    (vf : option (list (string * handler))) (include exclude : list string) : M unit :=
  do speciallyHandled <-
    match vf with
    | None => ret []
    | Some vf => applySpecialHandlers data vf include exclude
    end;
  for_each (own_keys data) (fun nm =>
    if isNameFiltered nm include exclude then ret tt
    else if existsb (String.eqb nm) speciallyHandled then ret tt
    else restore_name sanitize_other data nm).

End Filtered.

(** * Definitions used by the proofs *)

(** The world after a step that set the document to [d] and logged [evs]. *)
Definition upd (w : world) (d : doc) (evs : list event) : world :=
  mkWorld d (w_local w) (w_session w) (w_log w ++ evs) (w_listeners w).

Definition outcome_world {A} (r : result A) : world :=
  match r with Ok _ w => w | Err _ w => w end.

(** A page with document [d], empty storage, an empty log, no listeners. *)
Definition page (d : doc) : world := mkWorld d [] [] [] [].

Definition area (session : bool) (w : world) : storage :=
  if session then w_session w else w_local w.

Definition is_storage_event (ev : event) : bool :=
  match ev with EGetItem _ _ | ESetItem _ _ _ | ERemoveItem _ _ => true | _ => false end.

(** How the CSS string of a selector value reads: its code points, or the
    outcome of the query. *)
Definition css_outcome (s : string) : error + list N :=
  match css_value s with
  | CssValue cps => inr cps
  | CssBadString => inl SelectorSyntaxError
  | CssOpenString => inl UnparsedSelector
  end.

Definition selector_outcome (sel : option string) : error + option (list N) :=
  match sel with
  | None => inr None
  | Some s => match css_outcome s with inl e => inl e | inr cps => inr (Some cps) end
  end.

(** The controls of [form.querySelectorAll(...)]. *)
Definition nested_controls (v : option (list N)) (d : doc) : list nat :=
  querySelectorAll (fun e => nested e && recognized e && attr_test v (name_attr e)) d.

(** The controls of [document.querySelectorAll(...)] for the form reference
    [idc]. *)
Definition external_controls (v : option (list N)) (idc : list N) (d : doc) : list nat :=
  querySelectorAll (external_test v [idc; idc; idc]) d.

(** The value of [form.id] on the document [d]. *)
Definition form_id_value (f : form) (d : doc) : js_prop :=
  match form_named d "id" with Some nv => named_object d nv | None => PString (form_id f) end.

(** The outcome of [getFormElements] written as one case analysis (proved
    equal to it below). *)
Definition resolver_outcome (f : form) (sk : bool) (sel : option string) (w : world)
    : result (list nat) :=
  let d := w_doc w in
  match form_named d "querySelectorAll" with
  | Some _ => Err TypeError (upd w (remember d "querySelectorAll") [])
  | None =>
      match selector_outcome sel with
      | inl e => Err e (upd w d [EQuery (QueryForm sel)])
      | inr v =>
          if sk then Ok (nested_controls v d) (upd w d [EQuery (QueryForm sel)])
          else
            let p := form_id_value f d in
            let d' := remember d "id" in
            if negb (js_truthy p) then Ok (nested_controls v d) (upd w d' [EQuery (QueryForm sel)])
            else if document_named f d' "querySelectorAll" then
              Err TypeError (upd w d' [EQuery (QueryForm sel)])
            else
              let s := js_to_string p in
              let evs := [EQuery (QueryForm sel); EQuery (QueryDocument sel [s; s; s])] in
              match css_outcome s with
              | inl e => Err e (upd w d' evs)
              | inr idc => Ok (nested_controls v d ++ external_controls v idc d') (upd w d' evs)
              end
      end
  end.

(** An element without its past-names entries. *)
Definition strip (e : element) : element := set_past_names e [].

(** [serialize] skips password and file inputs. *)
Definition nonfp (e : element) : bool :=
  negb (is_input e && (String.eqb (type e) "password" || String.eqb (type e) "file")).

(** The values a serialized control contributes to its name's list. *)
Definition contrib (e : element) : list jval :=
  match tagName e with
  | INPUT =>
      if String.eqb (type e) "radio" then (if checked e then [JStr (value e)] else [])
      else if String.eqb (type e) "checkbox" then [JBool (checked e)]
      else [JStr (value e)]
  | TEXTAREA => [JStr (value e)]
  | SELECT =>
      if multiple e then map (fun o => JStr (opt_value o)) (filter selected (options e))
      else [JStr (select_value e)]
  | OTHER _ => []
  end.









(** Whether the resolver looks for externally associated controls. *)
Definition external_on (f : form) (sk : bool) : bool := negb sk && truthy (form_id f).


(** What the resolver returns on such a form: the nested controls, then the
    controls whose [form] attribute reads as the form's id. *)
Definition resolved (f : form) (sk : bool) (v : option (list N)) (d : doc) : list nat :=
  nested_controls v d
  ++ (if external_on f sk then external_controls v (code_points (form_id f)) d else []).

Definition resolver_log (f : form) (sk : bool) (sel : option string) : list event :=
  EQuery (QueryForm sel)
  :: (if external_on f sk then [EQuery (QueryDocument sel [form_id f; form_id f; form_id f])]
      else []).




(** [m] appends only events satisfying [P], keeps the document property
    [J], and leaves the storage areas and the listeners alone. *)
Definition keeps {A} (J : doc -> Prop) (P : event -> Prop) (m : M A) : Prop :=
  forall w, J (w_doc w) ->
    exists evs, w_log (outcome_world (m w)) = w_log w ++ evs /\ Forall P evs
                /\ J (w_doc (outcome_world (m w)))
                /\ w_local (outcome_world (m w)) = w_local w
                /\ w_session (outcome_world (m w)) = w_session w
                /\ w_listeners (outcome_world (m w)) = w_listeners w.

Definition is_query (ev : event) : Prop := match ev with EQuery _ => True | _ => False end.



Definition checkbox_test (c : bool) : element :=
  mkElement INPUT "checkbox" (Some "test") None "on" c false [] None true ThisForm [].






(** The world with the chosen storage area set to [s]. *)
Definition with_area (session : bool) (w : world) (s : storage) : world :=
  if session then mkWorld (w_doc w) (w_local w) s (w_log w) (w_listeners w)
  else mkWorld (w_doc w) s (w_session w) (w_log w) (w_listeners w).




(** Events other than a value-function call or a default write for [nm]. *)
Definition untouched (nm : string) (ev : event) : Prop :=
  (forall v, ev <> ECall nm v) /\ (forall p, ev <> EWrite p (Some nm)).

(** Distinct keys, each with a non-empty list and the property [Q]. *)
Definition record_inv (Q : string -> Prop) (r : record) : Prop :=
  NoDup (map fst r) /\ Forall (fun kv => snd kv <> [] /\ Q (fst kv)) r.

(** The structure of an element, as opposed to its state. *)
Definition skeleton (e : element) :=
  (tagName e, type e, name_attr e, id_attr e, form_attr e, nested e, owner e, multiple e,
   map opt_value (options e)).














(** * Proofs *)

(** ** Observations *)

(** ** The monad *)

Lemma bind_ok {A B} (m : M A) (k : A -> M B) w a w' :
  m w = Ok a w' -> bind m k w = k a w'.
Proof. intros H. unfold bind. rewrite H. reflexivity. Qed.

Lemma bind_err {A B} (m : M A) (k : A -> M B) w e w' :
  m w = Err e w' -> bind m k w = Err e w'.
Proof. intros H. unfold bind. rewrite H. reflexivity. Qed.

Ltac step H := rewrite (bind_ok _ _ _ _ _ H); cbv beta.
Ltac step_err H := rewrite (bind_err _ _ _ _ _ H).

Lemma upd_nil w : upd w (w_doc w) [] = w.
Proof. destruct w. unfold upd. simpl. rewrite app_nil_r. reflexivity. Qed.

Lemma upd_upd w d evs d' evs' : upd (upd w d evs) d' evs' = upd w d' (evs ++ evs').
Proof. unfold upd. simpl. rewrite app_assoc. reflexivity. Qed.

Lemma w_doc_upd w d evs : w_doc (upd w d evs) = d.
Proof. reflexivity. Qed.

Lemma emit_run ev w : emit ev w = Ok tt (upd w (w_doc w) [ev]).
Proof. reflexivity. Qed.

Lemma get_doc_run w : get_doc w = Ok (w_doc w) w.
Proof. reflexivity. Qed.

Lemma ret_run {A} (a : A) w : ret a w = Ok a w.
Proof. reflexivity. Qed.

Lemma form_lookup_run nm w :
  form_lookup nm w = Ok (form_named (w_doc w) nm) (upd w (remember (w_doc w) nm) []).
Proof.
  unfold form_lookup, bind, get_doc, put_doc, ret, upd. simpl. rewrite app_nil_r. reflexivity.
Qed.

(** ** Past names: [remember] changes nothing else *)

Lemma map_positions_map {B} (h : element -> B) g n d :
  (forall q e, h (g q e) = h e) -> map h (map_positions g n d) = map h d.
Proof.
  intros H. revert n. induction d as [|e d IH]; intros n; simpl; [reflexivity|].
  rewrite H, IH. reflexivity.
Qed.

Lemma indices_from_map_positions P g n m d :
  (forall q e, P (g q e) = P e) -> indices_from P (map_positions g m d) n = indices_from P d n.
Proof.
  intros H. revert n m. induction d as [|e d IH]; intros n m; simpl; [reflexivity|].
  rewrite H, IH. reflexivity.
Qed.

Lemma map_positions_comp g g' n d :
  map_positions g n (map_positions g' n d) = map_positions (fun q e => g q (g' q e)) n d.
Proof.
  revert n. induction d as [|e d IH]; intros n; simpl; [reflexivity|]. rewrite IH. reflexivity.
Qed.

Lemma map_positions_ext g g' n d :
  (forall q e, g q e = g' q e) -> map_positions g n d = map_positions g' n d.
Proof.
  intros H. revert n. induction d as [|e d IH]; intros n; simpl; [reflexivity|].
  rewrite H, IH. reflexivity.
Qed.

Lemma remember_none d nm : form_named d nm = None -> remember d nm = d.
Proof.
  unfold form_named, remember. destruct (form_candidates d nm) as [|p [|q ps]]; try discriminate;
    reflexivity.
Qed.

(** A view of elements blind to past names is blind to [remember]. *)
Lemma map_remember {B} (h : element -> B) d nm :
  (forall e ns, h (set_past_names e ns) = h e) -> map h (remember d nm) = map h d.
Proof.
  intros H. unfold remember. destruct (form_candidates d nm) as [|p [|q ps]]; try reflexivity.
  apply map_positions_map. intros q e. destruct (is_this_form e); auto.
Qed.

Lemma qsa_remember P d nm :
  (forall e ns, P (set_past_names e ns) = P e) ->
  querySelectorAll P (remember d nm) = querySelectorAll P d.
Proof.
  intros H. unfold remember. destruct (form_candidates d nm) as [|p [|q ps]]; try reflexivity.
  unfold querySelectorAll. apply indices_from_map_positions.
  intros q e. destruct (is_this_form e); auto.
Qed.

Lemma existsb_map_bool {A} (P : A -> bool) l : existsb P l = existsb (fun b => b) (map P l).
Proof. induction l as [|x l IH]; simpl; [reflexivity|]. rewrite IH. reflexivity. Qed.

Lemma existsb_remember P d nm :
  (forall e ns, P (set_past_names e ns) = P e) -> existsb P (remember d nm) = existsb P d.
Proof.
  intros H. rewrite !(existsb_map_bool P). rewrite (map_remember P d nm H). reflexivity.
Qed.

Lemma is_this_form_set_past e ns : is_this_form (set_past_names e ns) = is_this_form e.
Proof. reflexivity. Qed.

Lemma strip_set_past e ns : strip (set_past_names e ns) = strip e.
Proof. reflexivity. Qed.

Lemma map_strip_remember d nm : map strip (remember d nm) = map strip d.
Proof. apply map_remember. intros e ns. reflexivity. Qed.

Lemma form_candidates_remember d nm n : form_candidates (remember d nm) n = form_candidates d n.
Proof.
  unfold form_candidates. rewrite !(qsa_remember _ d nm) by (intros; reflexivity). reflexivity.
Qed.

Lemma existsb_filter_other n nm l :
  n <> nm ->
  existsb (String.eqb n) (filter (fun x => negb (String.eqb x nm)) l) = existsb (String.eqb n) l.
Proof.
  intros Hne. induction l as [|x l IH]; simpl; [reflexivity|].
  destruct (String.eqb x nm) eqn:Hx; simpl; rewrite IH; [|reflexivity].
  apply String.eqb_eq in Hx. subst x.
  assert (String.eqb n nm = false) as -> by (apply String.eqb_neq; exact Hne). reflexivity.
Qed.

Lemma past_lookup_remember d nm n :
  form_candidates d n = [] -> past_lookup (remember d nm) n = past_lookup d n.
Proof.
  intros Hn. unfold past_lookup, remember.
  destruct (form_candidates d nm) as [|p [|q ps]] eqn:Hm; try reflexivity.
  assert (Hne : n <> nm) by (intros ->; congruence).
  unfold querySelectorAll. rewrite indices_from_map_positions; [reflexivity|].
  intros q e. cbv beta. destruct (is_this_form e) eqn:Ht; [|rewrite Ht; reflexivity].
  rewrite is_this_form_set_past, Ht. unfold set_past_names. cbn [past_names andb].
  rewrite existsb_app, existsb_filter_other by exact Hne.
  destruct (Nat.eqb q p); simpl; [|reflexivity].
  assert (String.eqb n nm = false) as -> by (apply String.eqb_neq; exact Hne). reflexivity.
Qed.

Lemma form_named_remember d nm n : form_named (remember d nm) n = form_named d n.
Proof.
  unfold form_named. rewrite form_candidates_remember.
  destruct (form_candidates d n) as [|p [|q ps]] eqn:Hn; try reflexivity.
  rewrite past_lookup_remember by exact Hn. reflexivity.
Qed.

Lemma filter_app_other nm pre l :
  (pre = [nm] \/ pre = []) ->
  filter (fun x => negb (String.eqb x nm)) (pre ++ filter (fun x => negb (String.eqb x nm)) l)
  = filter (fun x => negb (String.eqb x nm)) l.
Proof.
  intros Hpre. rewrite filter_app.
  assert (filter (fun x => negb (String.eqb x nm)) pre = []) as ->.
  { destruct Hpre as [-> | ->]; simpl; [rewrite String.eqb_refl|]; reflexivity. }
  simpl. induction l as [|x l IH]; simpl; [reflexivity|].
  destruct (String.eqb x nm) eqn:Hx; simpl; [exact IH|]. rewrite Hx. simpl. rewrite IH. reflexivity.
Qed.

Lemma remember_idem d nm : remember (remember d nm) nm = remember d nm.
Proof.
  unfold remember at 1. rewrite form_candidates_remember.
  unfold remember. destruct (form_candidates d nm) as [|p [|q ps]] eqn:Hm; try reflexivity.
  rewrite map_positions_comp. apply map_positions_ext. intros q e.
  destruct (is_this_form e) eqn:Ht; cbv beta iota; [|rewrite Ht; reflexivity].
  rewrite is_this_form_set_past, Ht. unfold set_past_names. cbn [past_names tagName type name_attr
    id_attr value checked multiple options form_attr nested owner]. f_equal.
  rewrite filter_app_other by (destruct (Nat.eqb q p); auto). reflexivity.
Qed.

Lemma named_object_remember d nm v : named_object (remember d nm) v = named_object d v.
Proof.
  destruct v as [p|ps]; [|reflexivity]. simpl.
  pose proof (f_equal (fun l => nth_error l p) (map_remember interface_name d nm (fun e ns => eq_refl)))
    as H.
  simpl in H. rewrite !nth_error_map in H.
  destruct (nth_error (remember d nm) p), (nth_error d p); simpl in H; try discriminate;
    [injection H as ->|]; reflexivity.
Qed.

Lemma document_named_remember f d nm n :
  document_named f (remember d nm) n = document_named f d n.
Proof.
  unfold document_named. rewrite existsb_remember by (intros; reflexivity). reflexivity.
Qed.

Lemma form_id_value_remember f d nm : form_id_value f (remember d nm) = form_id_value f d.
Proof.
  unfold form_id_value. rewrite form_named_remember.
  destruct (form_named d "id"); [apply named_object_remember|reflexivity].
Qed.

(** ** The resolver *)

Lemma read_form_id_run f w :
  read_form_id f w = Ok (form_id_value f (w_doc w)) (upd w (remember (w_doc w) "id") []).
Proof.
  unfold read_form_id. step (form_lookup_run "id" w). step (get_doc_run (upd w (remember (w_doc w) "id") [])).
  rewrite w_doc_upd. unfold form_id_value, ret.
  destruct (form_named (w_doc w) "id"); [rewrite named_object_remember|]; reflexivity.
Qed.

Lemma map_m_stable {A B} (g : A -> M B) (xs : list A) w w' b :
  (forall x, g x w = Ok b w') -> (forall x, g x w' = Ok b w') -> xs <> [] ->
  map_m g xs w = Ok (map (fun _ => b) xs) w'.
Proof.
  intros H1 H2 Hne.
  assert (Haux : forall ys, map_m g ys w' = Ok (map (fun _ => b) ys) w').
  { induction ys as [|y ys IH]; [reflexivity|]. simpl map_m. step (H2 y). step (IH). reflexivity. }
  destruct xs as [|x xs]; [congruence|]. simpl map_m. step (H1 x). step (Haux xs). reflexivity.
Qed.

Lemma read_form_ids_run f w :
  map_m (fun _ => read_form_id f) tags w
  = Ok [form_id_value f (w_doc w); form_id_value f (w_doc w); form_id_value f (w_doc w)]
       (upd w (remember (w_doc w) "id") []).
Proof.
  apply (map_m_stable (fun _ => read_form_id f) tags w); [| |discriminate].
  - intros _. apply read_form_id_run.
  - intros _. rewrite read_form_id_run, w_doc_upd, form_id_value_remember, remember_idem, upd_upd.
    reflexivity.
Qed.

Lemma selector_value_run sel w :
  selector_value sel w
  = match selector_outcome sel with inl e => Err e w | inr v => Ok v w end.
Proof.
  destruct sel as [s|]; [|reflexivity]. unfold selector_value, selector_outcome, css_outcome,
    attribute_value. destruct (css_value s); reflexivity.
Qed.

Lemma attribute_values_run s w :
  map_m attribute_value [s; s; s] w
  = match css_outcome s with inl e => Err e w | inr c => Ok [c; c; c] w end.
Proof.
  unfold map_m, attribute_value, css_outcome. destruct (css_value s); reflexivity.
Qed.

Lemma selector_value_ok sel v w : selector_outcome sel = inr v -> selector_value sel w = Ok v w.
Proof. intros H. rewrite selector_value_run, H. reflexivity. Qed.

Lemma selector_value_err sel e w : selector_outcome sel = inl e -> selector_value sel w = Err e w.
Proof. intros H. rewrite selector_value_run, H. reflexivity. Qed.

Lemma attribute_values_ok s c w :
  css_outcome s = inr c -> map_m attribute_value [s; s; s] w = Ok [c; c; c] w.
Proof. intros H. rewrite attribute_values_run, H. reflexivity. Qed.

Lemma attribute_values_err s e w :
  css_outcome s = inl e -> map_m attribute_value [s; s; s] w = Err e w.
Proof. intros H. rewrite attribute_values_run, H. reflexivity. Qed.

(** [getFormElements] is [resolver_outcome]. *)
Lemma getFormElements_run f sk sel w :
  getFormElements f sk sel w = resolver_outcome f sk sel w.
Proof.
  unfold getFormElements, resolver_outcome.
  step (form_lookup_run "querySelectorAll" w).
  destruct (form_named (w_doc w) "querySelectorAll") as [nv|] eqn:Hq; [reflexivity|].
  rewrite (remember_none _ _ Hq), upd_nil.
  step (emit_run (EQuery (QueryForm sel)) w).
  destruct (selector_outcome sel) as [e|v] eqn:Hs.
  { step_err (selector_value_err sel e (upd w (w_doc w) [EQuery (QueryForm sel)]) Hs). reflexivity. }
  step (selector_value_ok sel v (upd w (w_doc w) [EQuery (QueryForm sel)]) Hs). step (get_doc_run (upd w (w_doc w) [EQuery (QueryForm sel)])).
  rewrite w_doc_upd. set (d := w_doc w).
  destruct sk.
  - reflexivity.
  - assert (Hx : (do id <- read_form_id f; ret (js_truthy id)) (upd w d [EQuery (QueryForm sel)])
                 = Ok (js_truthy (form_id_value f d))
                      (upd w (remember d "id") [EQuery (QueryForm sel)])).
    { step (read_form_id_run f (upd w d [EQuery (QueryForm sel)])).
      rewrite w_doc_upd, upd_upd, app_nil_r. reflexivity. }
    step Hx.
    destruct (js_truthy (form_id_value f d)) eqn:Ht; simpl negb; cbv iota; [|reflexivity].
    step (read_form_ids_run f (upd w (remember d "id") [EQuery (QueryForm sel)])).
    rewrite w_doc_upd, form_id_value_remember, remember_idem, upd_upd, app_nil_r.
    step (get_doc_run (upd w (remember d "id") [EQuery (QueryForm sel)])).
    rewrite w_doc_upd.
    destruct (document_named f (remember d "id") "querySelectorAll"); [reflexivity|].
    step (emit_run (EQuery (QueryDocument sel (map js_to_string
            [form_id_value f d; form_id_value f d; form_id_value f d])))
            (upd w (remember d "id") [EQuery (QueryForm sel)])).
    rewrite w_doc_upd, upd_upd. simpl map. simpl app.
    destruct (css_outcome (js_to_string (form_id_value f d))) as [e|c] eqn:Hc.
    + step_err (attribute_values_err _ e (upd w (remember d "id")
                 [EQuery (QueryForm sel); EQuery (QueryDocument sel
                   [js_to_string (form_id_value f d); js_to_string (form_id_value f d);
                    js_to_string (form_id_value f d)])]) Hc). reflexivity.
    + step (attribute_values_ok _ c (upd w (remember d "id")
                 [EQuery (QueryForm sel); EQuery (QueryDocument sel
                   [js_to_string (form_id_value f d); js_to_string (form_id_value f d);
                    js_to_string (form_id_value f d)])]) Hc). reflexivity.
Qed.

(** ** The record [serialize] builds *)

Lemma has_key_get {A} k (r : list (string * A)) :
  has_key k r = match get k r with Some _ => true | None => false end.
Proof.
  induction r as [|[k' vs] r IH]; simpl; [reflexivity|].
  unfold has_key in *. simpl. destruct (String.eqb k' k); simpl; auto.
Qed.

Lemma get_push k n v r :
  get k (push n v r) = if String.eqb n k then option_map (fun vs => vs ++ [v]) (get k r)
                       else get k r.
Proof.
  induction r as [|[k' vs] r IH]; simpl.
  - destruct (String.eqb n k); reflexivity.
  - destruct (String.eqb k' n) eqn:Hk'n.
    + apply String.eqb_eq in Hk'n. subst k'. simpl.
      destruct (String.eqb n k); reflexivity.
    + simpl. rewrite IH. destruct (String.eqb k' k) eqn:Hk'k; [|reflexivity].
      apply String.eqb_eq in Hk'k. subst k'. rewrite String.eqb_sym in Hk'n. rewrite Hk'n.
      reflexivity.
Qed.

Lemma has_key_push k n v r : has_key k (push n v r) = has_key k r.
Proof.
  rewrite !has_key_get, get_push. destruct (String.eqb n k); [destruct (get k r)|]; reflexivity.
Qed.


Lemma has_key_app_new k n (r : record) : has_key k (r ++ [(n, [])]) = has_key k r || String.eqb n k.
Proof.
  unfold has_key. rewrite existsb_app. simpl. rewrite orb_false_r. reflexivity.
Qed.




















(** ** CSS strings without special characters *)









(** ** The resolver on a form no named property overrides *)








Lemma indices_from_spec p d n i :
  In i (indices_from p d n) -> exists e, n <= i /\ nth_error d (i - n) = Some e /\ p e = true.
Proof.
  revert n. induction d as [|e d IH]; intros n H; simpl in H; [destruct H|].
  destruct (p e) eqn:Hp.
  - destruct H as [<-|H].
    + exists e. rewrite Nat.sub_diag. simpl. auto.
    + destruct (IH _ H) as (e' & Hle & He' & Hp'). exists e'. split; [lia|].
      replace (i - n) with (S (i - S n)) by lia. simpl. auto.
  - destruct (IH _ H) as (e' & Hle & He' & Hp'). exists e'. split; [lia|].
    replace (i - n) with (S (i - S n)) by lia. simpl. auto.
Qed.

Lemma in_querySelectorAll p d i :
  In i (querySelectorAll p d) -> exists e, nth_error d i = Some e /\ p e = true.
Proof.
  unfold querySelectorAll. intros H. destruct (indices_from_spec _ _ _ _ H) as (e & _ & He & Hp).
  rewrite Nat.sub_0_r in He. eauto.
Qed.




(** ** Runs that only append chosen events and keep a property of the
    document *)

Lemma keeps_upd {A} J P (m : M A) :
  (forall w, J (w_doc w) -> exists d evs, outcome_world (m w) = upd w d evs /\ Forall P evs /\ J d) ->
  keeps J P m.
Proof.
  intros H w HJ. destruct (H w HJ) as (d & evs & -> & HP & Hd). exists evs. unfold upd. simpl.
  repeat split; auto.
Qed.

Lemma keeps_ret {A} J P (a : A) : keeps J P (ret a).
Proof. apply keeps_upd. intros w HJ. exists (w_doc w), []. rewrite upd_nil. auto. Qed.

Lemma keeps_throw {A} J P e : keeps J P (@throw A e).
Proof. apply keeps_upd. intros w HJ. exists (w_doc w), []. rewrite upd_nil. auto. Qed.

Lemma keeps_emit J P ev : P ev -> keeps J P (emit ev).
Proof. intros HP. apply keeps_upd. intros w HJ. exists (w_doc w), [ev]. auto. Qed.

Lemma keeps_get_doc J P : keeps J P get_doc.
Proof. apply keeps_upd. intros w HJ. exists (w_doc w), []. rewrite upd_nil. auto. Qed.

Lemma keeps_bind {A B} J P (m : M A) (k : A -> M B) :
  keeps J P m -> (forall a, keeps J P (k a)) -> keeps J P (bind m k).
Proof.
  intros Hm Hk w HJ. unfold bind.
  destruct (Hm w HJ) as (evs1 & Hl1 & HP1 & HJ1 & Hs1 & Hs1' & Hl1').
  destruct (m w) as [a w1 | e w1]; simpl in *.
  - destruct (Hk a w1 HJ1) as (evs2 & Hl2 & HP2 & HJ2 & Hs2 & Hs2' & Hl2').
    exists (evs1 ++ evs2). rewrite Hl2, Hl1, app_assoc.
    repeat split; try congruence. apply Forall_app; auto.
  - exists evs1. repeat split; auto.
Qed.

(** The same, when the continuation only needs to be checked on the values
    [m] can return. *)
Lemma keeps_bind_ok {A B} J P (Q : A -> Prop) (m : M A) (k : A -> M B) :
  keeps J P m -> (forall w a w', J (w_doc w) -> m w = Ok a w' -> Q a) ->
  (forall a, Q a -> keeps J P (k a)) -> keeps J P (bind m k).
Proof.
  intros Hm HQ Hk w HJ. unfold bind.
  destruct (Hm w HJ) as (evs1 & Hl1 & HP1 & HJ1 & Hs1 & Hs1' & Hl1').
  destruct (m w) as [a w1 | e w1] eqn:Hmw; simpl in *.
  - destruct (Hk a (HQ w a w1 HJ Hmw) w1 HJ1) as (evs2 & Hl2 & HP2 & HJ2 & Hs2 & Hs2' & Hl2').
    exists (evs1 ++ evs2). rewrite Hl2, Hl1, app_assoc.
    repeat split; try congruence. apply Forall_app; auto.
  - exists evs1. repeat split; auto.
Qed.

Lemma keeps_for_each {A} J P (xs : list A) body :
  (forall x, In x xs -> keeps J P (body x)) -> keeps J P (for_each xs body).
Proof.
  induction xs as [|x xs IH]; intros H; simpl.
  - apply keeps_ret.
  - apply keeps_bind; [apply H; simpl; auto | intros _; apply IH; intros; apply H; simpl; auto].
Qed.

Lemma keeps_for_each_i {A} J P (xs : list A) n body :
  (forall x k, In x xs -> keeps J P (body x k)) -> keeps J P (for_each_i xs n body).
Proof.
  revert n. induction xs as [|x xs IH]; intros n H; simpl.
  - apply keeps_ret.
  - apply keeps_bind; [apply H; simpl; auto | intros _; apply IH; intros; apply H; simpl; auto].
Qed.

Lemma keeps_weaken {A} J P Q (m : M A) :
  (forall ev, P ev -> Q ev) -> keeps J P m -> keeps J Q m.
Proof.
  intros HPQ Hm w HJ. destruct (Hm w HJ) as (evs & H1 & H2 & H3).
  exists evs. split; [auto | split; [eapply Forall_impl; eauto | auto]].
Qed.

Lemma keeps_form_lookup J P nm :
  (forall d, J d -> J (remember d nm)) -> keeps J P (form_lookup nm).
Proof.
  intros HJ. apply keeps_upd. intros w Hw. exists (remember (w_doc w) nm), [].
  rewrite form_lookup_run. auto.
Qed.

(** The resolver only queries, and changes the document only by
    remembering [querySelectorAll] and [id]. *)
Lemma keeps_getFormElements_ids J f sk sel :
  (forall d, J d -> J (remember d "querySelectorAll") /\ J (remember d "id")) ->
  keeps J is_query (getFormElements f sk sel).
Proof.
  intros HJ. apply keeps_upd. intros w Hw. rewrite getFormElements_run. unfold resolver_outcome.
  destruct (HJ _ Hw) as [Hq Hi].
  destruct (form_named (w_doc w) "querySelectorAll").
  { eexists; exists []; simpl; auto. }
  destruct (selector_outcome sel) as [e|v].
  { eexists; eexists; split; [reflexivity|]. repeat constructor. exact Hw. }
  destruct sk.
  { eexists; eexists; split; [reflexivity|]. repeat constructor. exact Hw. }
  destruct (negb (js_truthy (form_id_value f (w_doc w)))).
  { eexists; eexists; split; [reflexivity|]. repeat constructor. auto. }
  destruct (document_named f (remember (w_doc w) "id") "querySelectorAll").
  { eexists; eexists; split; [reflexivity|]. repeat constructor. auto. }
  destruct (css_outcome _); eexists; eexists; (split; [reflexivity|]); repeat constructor; auto.
Qed.

Lemma keeps_getFormElements J f sk sel :
  (forall d nm, J d -> J (remember d nm)) -> keeps J is_query (getFormElements f sk sel).
Proof. intros HJ. apply keeps_getFormElements_ids. auto. Qed.





(** ** What [applyValues] changes *)

Lemma map_replace_nth {A B} (f : A -> B) l i x y :
  nth_error l i = Some y -> f x = f y -> map f (replace_nth i x l) = map f l.
Proof.
  revert i. induction l as [|z l IH]; intros [|i] Hn Hf; simpl in *; try discriminate.
  - inversion Hn; subst. rewrite Hf. reflexivity.
  - f_equal. apply IH; auto.
Qed.


Lemma select_first_values s os : map opt_value (select_first s os) = map opt_value os.
Proof.
  induction os as [|o os IH]; simpl; [reflexivity|].
  destruct (String.eqb (opt_value o) s); simpl; [|rewrite IH; reflexivity].
  rewrite map_map. reflexivity.
Qed.

Lemma applyValues_run san pos vs k w :
  applyValues san pos vs k w
  = match nth_error (w_doc w) pos with
    | None => Ok tt w
    | Some e =>
        match apply_values san (w_doc w) pos e vs k with
        | inl err => Err err (upd w (w_doc w) [EWrite pos (name_attr e)])
        | inr d' => Ok tt (upd w d' [EWrite pos (name_attr e)])
        end
    end.
Proof.
  unfold applyValues, bind, get_doc, emit, throw, put_doc, ret, upd. simpl.
  destruct (nth_error (w_doc w) pos); [|reflexivity].
  destruct (apply_values san (w_doc w) pos e vs k); reflexivity.
Qed.

(** A view [h] of elements blind to the checked state, the value and the
    selection of options is kept by [applyValues]. *)
Section View.
Variable B : Type.
Variable h : element -> B.
Hypothesis h_checked : forall e b, h (set_checked e b) = h e.
Hypothesis h_value : forall e s, h (set_value e s) = h e.
Hypothesis h_options : forall e os, map opt_value os = map opt_value (options e) ->
                                   h (set_options e os) = h e.

Lemma apply_values_view san d pos e vs k d' :
  nth_error d pos = Some e -> apply_values san d pos e vs k = inr d' -> map h d' = map h d.
Proof.
  intros He. unfold apply_values.
  destruct (tagName e).
  - destruct (String.eqb (type e) "radio").
    + intros Hd. injection Hd as <-. unfold check_radio. cbv zeta.
      destruct (strict_eq_str (value e) _).
      * rewrite map_positions_map.
        -- apply (map_replace_nth h d pos _ e He). apply h_checked.
        -- intros q e'. destruct (negb (Nat.eqb q pos) && same_radio_group e e');
             [apply h_checked|reflexivity].
      * apply (map_replace_nth h d pos _ e He). apply h_checked.
    + destruct (String.eqb (type e) "checkbox").
      * intros Hd. injection Hd as <-. apply (map_replace_nth h d pos _ e He). apply h_checked.
      * destruct (sanitize san e _); [discriminate|]. intros Hd. injection Hd as <-.
        apply (map_replace_nth h d pos _ e He). apply h_value.
  - intros Hd. injection Hd as <-. apply (map_replace_nth h d pos _ e He). apply h_value.
  - destruct (multiple e); intros Hd; injection Hd as <-; apply (map_replace_nth h d pos _ e He);
      apply h_options.
    + rewrite map_map. reflexivity.
    + apply select_first_values.
  - intros Hd. injection Hd as <-. reflexivity.
Qed.

(** [applyValues] logs one default write at its position, with the [name]
    attribute the position carries. *)
Lemma keeps_applyValues san s pos vs k :
  keeps (fun d => map h d = s)
        (fun ev => exists e, ev = EWrite pos (name_attr e) /\ nth_error s pos = Some (h e))
        (applyValues san pos vs k).
Proof.
  apply keeps_upd. intros w HJ. rewrite applyValues_run.
  destruct (nth_error (w_doc w) pos) as [e|] eqn:He.
  - assert (Hs : nth_error s pos = Some (h e)) by (rewrite <- HJ, nth_error_map, He; reflexivity).
    destruct (apply_values san (w_doc w) pos e vs k) as [err|d'] eqn:Ha.
    + exists (w_doc w), [EWrite pos (name_attr e)]. split; [reflexivity|].
      split; [constructor; [eauto|constructor]|exact HJ].
    + exists d', [EWrite pos (name_attr e)]. split; [reflexivity|].
      split; [constructor; [eauto|constructor]|].
      rewrite <- HJ. apply (apply_values_view san (w_doc w) pos e vs k d' He Ha).
  - exists (w_doc w), []. rewrite upd_nil. auto.
Qed.

End View.

(** ** Sample controls *)

(** ** C3 *)



(** ** C4 *)




(** ** C9 *)




(** ** Runs of the storage wrappers *)

Lemma getItem_setItem_same k v s : getItem k (setItem k v s) = Some v.
Proof.
  induction s as [|[k' v'] s IH]; simpl.
  - rewrite String.eqb_refl. reflexivity.
  - destruct (String.eqb k' k) eqn:E; simpl; rewrite E; [reflexivity | exact IH].
Qed.

Lemma getItem_setItem_other k k' v s : k' <> k -> getItem k' (setItem k v s) = getItem k' s.
Proof.
  intros Hne. induction s as [|[k0 v0] s IH]; simpl.
  - destruct (String.eqb k k') eqn:E; [|reflexivity].
    apply String.eqb_eq in E. congruence.
  - destruct (String.eqb k0 k) eqn:E; simpl.
    + apply String.eqb_eq in E. subst k0.
      destruct (String.eqb k k') eqn:E'; [apply String.eqb_eq in E'; congruence|reflexivity].
    + rewrite IH. reflexivity.
Qed.

Lemma getItem_removeItem_same k s : getItem k (removeItem k s) = None.
Proof.
  unfold removeItem. induction s as [|[k' v'] s IH]; simpl; [reflexivity|].
  destruct (String.eqb k' k) eqn:E; simpl; [exact IH|]. rewrite E. exact IH.
Qed.

Lemma getItem_removeItem_other k k' s : k' <> k -> getItem k' (removeItem k s) = getItem k' s.
Proof.
  intros Hne. unfold removeItem. induction s as [|[k0 v0] s IH]; simpl; [reflexivity|].
  destruct (String.eqb k0 k) eqn:E; simpl.
  - apply String.eqb_eq in E. subst k0.
    destruct (String.eqb k k') eqn:E'; [apply String.eqb_eq in E'; congruence|exact IH].
  - rewrite IH. reflexivity.
Qed.

Lemma area_with_area ss w s : area ss (with_area ss w s) = s.
Proof. destruct ss; reflexivity. Qed.

Lemma area_with_area_other ss w s : area (negb ss) (with_area ss w s) = area (negb ss) w.
Proof. destruct ss; reflexivity. Qed.

Lemma storage_setItem_run ss k v w :
  storage_setItem ss k v w = Ok tt (with_area ss (upd w (w_doc w) [ESetItem ss k v])
                                             (setItem k v (area ss w))).
Proof. destruct ss; reflexivity. Qed.

Lemma storage_removeItem_run ss k w :
  storage_removeItem ss k w = Ok tt (with_area ss (upd w (w_doc w) [ERemoveItem ss k])
                                               (removeItem k (area ss w))).
Proof. destruct ss; reflexivity. Qed.

Lemma storage_getItem_run ss k w :
  storage_getItem ss k w = Ok (getItem k (area ss w)) (upd w (w_doc w) [EGetItem ss k]).
Proof. destruct ss; reflexivity. Qed.

Lemma getStorageKey_uuid f u w :
  truthy (uuid_string u) = true -> getStorageKey f u w = Ok (String.append "form#" (uuid_string u)) w.
Proof. intros H. unfold getStorageKey. rewrite H. reflexivity. Qed.

Lemma getStorageKey_id f u w :
  truthy (uuid_string u) = false -> form_named (w_doc w) "id" = None ->
  getStorageKey f u w
  = if truthy (form_id f) then Ok (String.append "form#" (form_id f)) w else Err ConfigError w.
Proof.
  intros Hu Hid. unfold getStorageKey. rewrite Hu.
  assert (Hr : read_form_id f w = Ok (PString (form_id f)) w).
  { rewrite read_form_id_run. unfold form_id_value. rewrite Hid.
    rewrite (remember_none _ _ Hid), upd_nil. reflexivity. }
  unfold bind, ret. rewrite Hr. cbn [js_truthy js_to_string].
  destruct (truthy (form_id f)); cbv beta iota delta [negb throw]; try rewrite Hr; reflexivity.
Qed.

Lemma save_run sj f cfg w :
  save sj f cfg w
  = match serialize f (skipExternal cfg) w with
    | Err e w1 => Err e w1
    | Ok r w1 =>
        match getStorageKey f (uuid cfg) w1 with
        | Err e w2 => Err e w2
        | Ok key w2 => storage_setItem (useSessionStorage cfg) key (sj r) w2
        end
    end.
Proof.
  unfold save, bind. destruct (serialize f (skipExternal cfg) w) as [r w1|e w1]; [|reflexivity].
  destruct (getStorageKey f (uuid cfg) w1); reflexivity.
Qed.

Lemma load_run san jp f cfg w :
  load san jp f cfg w
  = match getStorageKey f (uuid cfg) w with
    | Err e w1 => Err e w1
    | Ok key w1 =>
        let ss := useSessionStorage cfg in
        let w2 := upd w1 (w_doc w1) [EGetItem ss key] in
        match getItem key (area ss w1) with
        | Some j =>
            if truthy j then
              match jp j with
              | Some data => deserialize san f data cfg w2
              | None => Err SyntaxError w2
              end
            else Ok tt w2
        | None => Ok tt w2
        end
    end.
Proof.
  unfold load. unfold bind at 1. destruct (getStorageKey f (uuid cfg) w) as [key w1|e w1];
    [|reflexivity].
  unfold bind at 1. rewrite storage_getItem_run. cbv zeta.
  destruct (getItem key (area (useSessionStorage cfg) w1)) as [j|]; [|reflexivity].
  destruct (truthy j); [|reflexivity]. destruct (jp j); reflexivity.
Qed.

Lemma clearStorage_run f cfg w :
  clearStorage f cfg w
  = match getStorageKey f (uuid cfg) w with
    | Err e w1 => Err e w1
    | Ok key w1 => storage_removeItem (useSessionStorage cfg) key w1
    end.
Proof.
  unfold clearStorage, bind. destruct (getStorageKey f (uuid cfg) w); reflexivity.
Qed.


(** ** Runs that touch no storage *)

Lemma keeps_true_of {B} (h : element -> B) P {A} (m : M A) :
  (forall s, keeps (fun d => map h d = s) P m) -> keeps (fun _ => True) P m.
Proof.
  intros H w _. destruct (H (map h (w_doc w)) w eq_refl) as (evs & H1 & H2 & _ & H3).
  exists evs. auto.
Qed.

Lemma keeps_put_doc_true P d : keeps (fun _ => True) P (put_doc d).
Proof. intros w _. exists []. rewrite app_nil_r. simpl. repeat split; auto. Qed.

Lemma keeps_call_handler P fn h v :
  P (ECall fn v) -> keeps (fun _ => True) P (call_handler fn h v).
Proof.
  intros HP. unfold call_handler. apply keeps_bind; [apply keeps_emit; exact HP|]. intros _.
  apply keeps_bind; [apply keeps_get_doc|]. intros d. apply keeps_put_doc_true.
Qed.

Lemma keeps_iterate_values J P data fn : keeps J P (iterate_values data fn).
Proof. unfold iterate_values. destruct (get fn data); [apply keeps_ret|apply keeps_throw]. Qed.

Lemma keeps_handlers_loop P data vf ks acc :
  (forall fn v, P (ECall fn v)) -> keeps (fun _ => True) P (apply_handlers_loop data vf ks acc).
Proof.
  intros HP. revert acc. induction ks as [|k ks IH]; intros acc; simpl; [apply keeps_ret|].
  destruct (js_in k data); [|apply IH].
  apply keeps_bind; [apply keeps_iterate_values|]. intros vs.
  apply keeps_bind; [|intros _; apply IH].
  apply keeps_for_each. intros v _. apply keeps_call_handler. apply HP.
Qed.

Lemma names_remember d nm : map name_attr (remember d nm) = map name_attr d.
Proof. apply map_remember. reflexivity. Qed.

Lemma keeps_restore_name_any P san f cfg data nm :
  (forall q, P (EQuery q)) -> (forall p n, P (EWrite p n)) ->
  keeps (fun _ => True) P (restore_name san f cfg data nm).
Proof.
  intros HQ HW. apply (keeps_true_of name_attr). intros s. unfold restore_name.
  apply keeps_bind.
  - eapply keeps_weaken; [|apply keeps_getFormElements].
    + intros [] H; try destruct H. apply HQ.
    + intros d n <-. apply names_remember.
  - intros inputs. apply keeps_for_each_i. intros p i _.
    eapply keeps_weaken; [|apply keeps_applyValues].
    + intros ev (e & -> & _). apply HW.
    + reflexivity.
    + reflexivity.
    + reflexivity.
Qed.

(** [deserialize] only calls value functions, queries and writes
    controls; it leaves storage and listeners alone. *)
Lemma keeps_deserialize_any P san f data cfg :
  (forall q, P (EQuery q)) -> (forall fn v, P (ECall fn v)) -> (forall p n, P (EWrite p n)) ->
  keeps (fun _ => True) P (deserialize san f data cfg).
Proof.
  intros HQ HC HW. unfold deserialize. apply keeps_bind.
  - destruct (valueFunctions cfg); [apply keeps_handlers_loop; exact HC|apply keeps_ret].
  - intros handled. apply keeps_for_each. intros nm _.
    destruct (existsb (String.eqb nm) handled); [apply keeps_ret|].
    apply keeps_restore_name_any; assumption.
Qed.

(** [serialize] only queries, and keeps any document property that
    [remember] keeps. *)
Lemma keeps_serialize J f sk :
  (forall d nm, J d -> J (remember d nm)) -> keeps J is_query (serialize f sk).
Proof.
  intros HJ. unfold serialize. apply keeps_bind; [apply keeps_getFormElements; exact HJ|].
  intros R. apply keeps_bind; [apply keeps_get_doc|]. intros d.
  destruct (serialize_loop d R []); [apply keeps_throw|apply keeps_ret].
Qed.

Lemma serialize_keeps_id f sk w r w1 :
  form_named (w_doc w) "id" = None -> serialize f sk w = Ok r w1 ->
  form_named (w_doc w1) "id" = None.
Proof.
  intros Hid Hs.
  destruct (keeps_serialize (fun d => form_named d "id" = None) f sk
              (fun d nm H => eq_trans (form_named_remember d nm "id") H) w Hid)
    as (_ & _ & _ & H & _). rewrite Hs in H. exact H.
Qed.

Lemma keeps_read_form_id J P f :
  (forall d nm, J d -> J (remember d nm)) -> keeps J P (read_form_id f).
Proof.
  intros HJ. unfold read_form_id. apply keeps_bind; [apply keeps_form_lookup; auto|]. intros v.
  apply keeps_bind; [apply keeps_get_doc|]. intros d. apply keeps_ret.
Qed.

(** [getStorageKey] logs nothing and only remembers named properties. *)
Lemma keeps_getStorageKey J P f u :
  (forall d nm, J d -> J (remember d nm)) -> keeps J P (getStorageKey f u).
Proof.
  intros HJ. unfold getStorageKey. apply keeps_bind.
  - destruct (truthy (uuid_string u)); [apply keeps_ret|].
    apply keeps_bind; [apply keeps_read_form_id; exact HJ|]. intros; apply keeps_ret.
  - intros []; [apply keeps_throw|]. apply keeps_bind; [|intros; apply keeps_ret].
    destruct (truthy (uuid_string u)); [apply keeps_ret|].
    apply keeps_bind; [apply keeps_read_form_id; exact HJ|]. intros; apply keeps_ret.
Qed.

Lemma getStorageKey_world f u w key w1 :
  getStorageKey f u w = Ok key w1 ->
  w_log w1 = w_log w /\ w_local w1 = w_local w /\ w_session w1 = w_session w
  /\ w_listeners w1 = w_listeners w.
Proof.
  intros H. destruct (keeps_getStorageKey (fun _ => True) (fun _ => False) f u
                        (fun _ _ _ => I) w I) as (evs & H1 & H2 & _ & H3 & H4 & H5).
  rewrite H in *. simpl in *. destruct evs as [|ev evs]; [|inversion H2; contradiction].
  rewrite app_nil_r in H1. auto.
Qed.

Lemma getStorageKey_area f u w key w1 ss :
  getStorageKey f u w = Ok key w1 -> area ss w1 = area ss w.
Proof.
  intros H. destruct (getStorageKey_world _ _ _ _ _ H) as (_ & H1 & H2 & _).
  unfold area. destruct ss; assumption.
Qed.

Lemma serialize_world f sk w r w1 :
  serialize f sk w = Ok r w1 ->
  w_local w1 = w_local w /\ w_session w1 = w_session w /\ w_listeners w1 = w_listeners w
  /\ exists evs, w_log w1 = w_log w ++ evs /\ Forall is_query evs.
Proof.
  intros H. destruct (keeps_serialize (fun _ => True) f sk (fun _ _ _ => I) w I)
    as (evs & H1 & H2 & _ & H3 & H4 & H5).
  rewrite H in *. simpl in *. repeat split; auto. exists evs. auto.
Qed.

Lemma with_area_fields ss w s :
  w_doc (with_area ss w s) = w_doc w /\ w_log (with_area ss w s) = w_log w
  /\ w_listeners (with_area ss w s) = w_listeners w.
Proof. destruct ss; repeat split. Qed.

Lemma area_with_area_neg ss w s : area (negb ss) (with_area ss w s) = area (negb ss) w.
Proof. destruct ss; reflexivity. Qed.

Lemma area_upd ss w d evs : area ss (upd w d evs) = area ss w.
Proof. destruct ss; reflexivity. Qed.

(** ** Storage: the key, and the operations that use it *)




(** C10. With a uuid, the key is [form#] followed by the uuid, whatever the
    form id; without one, with a non-empty form id and no control named
    [id], it is [form#] followed by the form id.  [save] then stores the
    serialized record under that key (or fails in [serialize] before any
    storage access), [load] reads that key and touches no other storage,
    and [clearStorage] removes that key. *)
Theorem storage_key_precedence sj san jp f cfg w key :
  let ss := useSessionStorage cfg in
  (truthy (uuid_string (uuid cfg)) = true /\ key = String.append "form#" (uuid_string (uuid cfg))
   \/ truthy (uuid_string (uuid cfg)) = false /\ truthy (form_id f) = true
      /\ form_named (w_doc w) "id" = None /\ key = String.append "form#" (form_id f)) ->
  getStorageKey f (uuid cfg) w = Ok key w
  /\ save sj f cfg w
     = match serialize f (skipExternal cfg) w with
       | Err e w1 => Err e w1
       | Ok r w1 => Ok tt (with_area ss (upd w1 (w_doc w1) [ESetItem ss key (sj r)])
                                     (setItem key (sj r) (area ss w1)))
       end
  /\ (exists evs, w_log (outcome_world (load san jp f cfg w)) = w_log w ++ EGetItem ss key :: evs
                  /\ Forall (fun ev => is_storage_event ev = false) evs
                  /\ w_local (outcome_world (load san jp f cfg w)) = w_local w
                  /\ w_session (outcome_world (load san jp f cfg w)) = w_session w)
  /\ clearStorage f cfg w
     = Ok tt (with_area ss (upd w (w_doc w) [ERemoveItem ss key]) (removeItem key (area ss w))).
Proof.
  intros ss Hcase.
  assert (Hk : forall w', (truthy (uuid_string (uuid cfg)) = false ->
                            form_named (w_doc w') "id" = None) ->
                          getStorageKey f (uuid cfg) w' = Ok key w').
  { intros w' Hw'. destruct Hcase as [[Hu ->] | (Hu & Hf & _ & ->)].
    - apply getStorageKey_uuid. exact Hu.
    - rewrite (getStorageKey_id _ _ _ Hu (Hw' Hu)), Hf. reflexivity. }
  assert (Hid : truthy (uuid_string (uuid cfg)) = false -> form_named (w_doc w) "id" = None).
  { intros Hu. destruct Hcase as [[Hu' _] | (_ & _ & H & _)]; [congruence|exact H]. }
  split; [apply Hk; exact Hid|]. split.
  - rewrite save_run. destruct (serialize f (skipExternal cfg) w) as [r w1|e w1] eqn:Hser;
      [|reflexivity].
    rewrite (Hk w1); [apply storage_setItem_run|].
    intros Hu. exact (serialize_keeps_id _ _ _ _ _ (Hid Hu) Hser).
  - split; [|rewrite clearStorage_run, (Hk w Hid); apply storage_removeItem_run].
    rewrite load_run, (Hk w Hid). cbv zeta. fold ss.
    set (w2 := upd w (w_doc w) [EGetItem ss key]).
    assert (Hd : forall m : M unit, keeps (fun _ => True)
                   (fun ev => is_storage_event ev = false) m ->
                 exists evs, w_log (outcome_world (m w2)) = w_log w ++ EGetItem ss key :: evs
                   /\ Forall (fun ev => is_storage_event ev = false) evs
                   /\ w_local (outcome_world (m w2)) = w_local w
                   /\ w_session (outcome_world (m w2)) = w_session w).
    { intros m Hm. destruct (Hm w2 I) as (evs & H1 & H2 & _ & H3 & H4 & _).
      exists evs. rewrite H1, H3, H4. simpl. rewrite <- app_assoc. auto. }
    assert (Hd0 : exists evs, w_log w2 = w_log w ++ EGetItem ss key :: evs
                   /\ Forall (fun ev => is_storage_event ev = false) evs
                   /\ w_local w2 = w_local w /\ w_session w2 = w_session w).
    { exists []. simpl. auto. }
    destruct (getItem key (area ss w)) as [j|]; [|exact Hd0].
    destruct (truthy j); [|exact Hd0]. destruct (jp j) as [data|]; [|exact Hd0].
    apply Hd. apply keeps_deserialize_any; reflexivity.
Qed.

Lemma storage_key_precedence_witness :
  getStorageKey (mkForm "f1" None) (Some "k") (page [checkbox_test true]) = Ok "form#k" (page [checkbox_test true])
  /\ getStorageKey (mkForm "f1" None) None (page [checkbox_test true]) = Ok "form#f1" (page [checkbox_test true]).
Proof.
  split.
  - destruct (storage_key_precedence (fun _ => "{}") (fun _ s => s) (fun _ => None) (mkForm "f1" None)
                (mkConfig (Some "k") false false None false) (page [checkbox_test true]) "form#k")
      as [H _]; [left; split; reflexivity|exact H].
  - destruct (storage_key_precedence (fun _ => "{}") (fun _ s => s) (fun _ => None) (mkForm "f1" None)
                defaults (page [checkbox_test true]) "form#f1")
      as [H _]; [right; split; [reflexivity|split; [reflexivity|split; [vm_compute; reflexivity|reflexivity]]]|exact H].
Defined.

(** [save] stores the serialized record under the form's key when both
    [serialize] and the key succeed; every other key of the area, the other
    area, the page and the listeners are then as those steps left them.
    When [save] throws, both areas and the listeners are unchanged and
    only queries were logged. *)
Theorem save_stores_serialized sj f cfg w :
  let ss := useSessionStorage cfg in
  (forall r w1 key w2,
     serialize f (skipExternal cfg) w = Ok r w1 -> getStorageKey f (uuid cfg) w1 = Ok key w2 ->
     exists w', save sj f cfg w = Ok tt w'
       /\ getItem key (area ss w') = Some (sj r)
       /\ (forall k, k <> key -> getItem k (area ss w') = getItem k (area ss w))
       /\ area (negb ss) w' = area (negb ss) w
       /\ w_doc w' = w_doc w2 /\ w_listeners w' = w_listeners w
       /\ w_log w' = w_log w2 ++ [ESetItem ss key (sj r)])
  /\ (forall e w', save sj f cfg w = Err e w' ->
        w_local w' = w_local w /\ w_session w' = w_session w /\ w_listeners w' = w_listeners w
        /\ exists evs, w_log w' = w_log w ++ evs /\ Forall is_query evs).
Proof.
  intros ss. split.
  - intros r w1 key w2 Hser Hk.
    destruct (serialize_world _ _ _ _ _ Hser) as (Hl1 & Hs1 & Hn1 & _).
    destruct (getStorageKey_world _ _ _ _ _ Hk) as (_ & Hl2 & Hs2 & Hn2).
    assert (Ha : forall b, area b w2 = area b w).
    { intros []; unfold area; congruence. }
    eexists. split; [rewrite save_run, Hser, Hk; apply storage_setItem_run|].
    rewrite area_with_area, area_with_area_neg, area_upd.
    split; [apply getItem_setItem_same|]. split.
    + intros k Hne. rewrite getItem_setItem_other by exact Hne. rewrite Ha. reflexivity.
    + rewrite Ha. split; [reflexivity|].
      destruct (useSessionStorage cfg); simpl; repeat split; congruence.
  - intros e w' Hs. rewrite save_run in Hs.
    destruct (serialize f (skipExternal cfg) w) as [r w1|e1 w1] eqn:Hser.
    + destruct (serialize_world _ _ _ _ _ Hser) as (Hl1 & Hs1 & Hn1 & evs & Hg1 & Hq1).
      destruct (keeps_getStorageKey (fun _ => True) (fun _ => False) f (uuid cfg)
                  (fun _ _ _ => I) w1 I) as (evs2 & H1 & H2 & _ & H3 & H4 & H5).
      destruct (getStorageKey f (uuid cfg) w1) as [key w2|e2 w2];
        [rewrite storage_setItem_run in Hs; discriminate|].
      injection Hs as <- <-. simpl in *. destruct evs2; [|inversion H2; contradiction].
      repeat split; try congruence. exists evs. rewrite H1, app_nil_r. auto.
    + injection Hs as <- <-.
      destruct (keeps_serialize (fun _ => True) f (skipExternal cfg) (fun _ _ _ => I) w I)
        as (evs & H1 & H2 & _ & H3 & H4 & H5).
      rewrite Hser in *. simpl in *. repeat split; auto. exists evs. auto.
Qed.

Lemma save_stores_serialized_witness :
  exists w', save (fun _ => "{}") (mkForm "f1" None) defaults (page [checkbox_test true]) = Ok tt w'
    /\ getItem "form#f1" (area (useSessionStorage defaults) w') = Some "{}".
Proof.
  set (w0 := page [checkbox_test true]).
  set (w1 := upd w0 (w_doc w0) (resolver_log (mkForm "f1" None) false None)).
  assert (H1 : serialize (mkForm "f1" None) (skipExternal defaults) w0
               = Ok [("test", [JBool true])] w1) by (vm_compute; reflexivity).
  assert (H2 : getStorageKey (mkForm "f1" None) (uuid defaults) w1 = Ok "form#f1" w1)
    by (vm_compute; reflexivity).
  destruct (proj1 (save_stores_serialized (fun _ => "{}") (mkForm "f1" None) defaults w0)
                  _ _ _ _ H1 H2) as (w' & Hs & Hg & _).
  exists w'. split; [exact Hs|exact Hg].
Defined.



(** [clearStorage] removes the form's key from the chosen area and leaves
    every other key, the other area and the page alone; a later [load] on a
    page sharing that area and resolving the same key only reads the key. *)
Theorem clearStorage_then_load san jp f cfg w w0 w1 key :
  let ss := useSessionStorage cfg in
  getStorageKey f (uuid cfg) w = Ok key w0 ->
  clearStorage f cfg w = Ok tt w1 ->
  getItem key (area ss w1) = None
  /\ (forall k, k <> key -> getItem k (area ss w1) = getItem k (area ss w))
  /\ area (negb ss) w1 = area (negb ss) w
  /\ w_doc w1 = w_doc w0
  /\ (forall w2 w2', getStorageKey f (uuid cfg) w2 = Ok key w2' -> area ss w2 = area ss w1 ->
        load san jp f cfg w2 = Ok tt (upd w2' (w_doc w2') [EGetItem ss key])).
Proof.
  intros ss Hk Hc. rewrite clearStorage_run, Hk, storage_removeItem_run in Hc.
  injection Hc as <-.
  rewrite area_with_area, area_with_area_neg, area_upd, !(getStorageKey_area _ _ _ _ _ _ Hk).
  split; [apply getItem_removeItem_same|]. split.
  - intros k Hne. apply getItem_removeItem_other. exact Hne.
  - split; [reflexivity|]. split; [destruct (useSessionStorage cfg); reflexivity|].
    intros w2 w2' Hk2 Ha. rewrite load_run, Hk2. cbv zeta. fold ss.
    rewrite (getStorageKey_area _ _ _ _ _ _ Hk2), Ha, getItem_removeItem_same.
    reflexivity.
Qed.

Lemma clearStorage_then_load_witness :
  getItem "form#f1" (area false (outcome_world
    (clearStorage (mkForm "f1" None) defaults (mkWorld [] [("form#f1", "{}")] [] [] [])))) = None.
Proof.
  destruct (clearStorage_then_load (fun _ s => s) (fun _ => None) (mkForm "f1" None) defaults
              (mkWorld [] [("form#f1", "{}")] [] [] []) (mkWorld [] [("form#f1", "{}")] [] [] [])
              (mkWorld [] [] [] [ERemoveItem false "form#f1"] []) "form#f1") as [H _];
    [vm_compute; reflexivity|vm_compute; reflexivity|exact H].
Defined.



(** ** Soundness of the resolver for a name *)




(** ** The checkbox scenario *)






(** ** The radio scenario *)





(** ** Value functions before the default restoration *)








(** ** The filtered revision: what a filtered name is spared *)

Lemma filtered_pushToArray_has_key data key v r nm :
  Filtered.pushToArray data key v = inr r -> String.eqb key nm = false ->
  has_key nm r = has_key nm data.
Proof.
  unfold Filtered.pushToArray, js_push. intros H Hk.
  destruct (js_in key data).
  - destruct (has_key key data); [|discriminate]. injection H as <-. apply has_key_push.
  - destruct (has_key key (data ++ [(key, [])])); [|discriminate]. injection H as <-.
    rewrite has_key_push, has_key_app_new, Hk, orb_false_r. reflexivity.
Qed.

Lemma filtered_push_selected_has_key key os data r nm :
  Filtered.push_selected key os data = inr r -> String.eqb key nm = false ->
  has_key nm r = has_key nm data.
Proof.
  revert data. induction os as [|o os IH]; intros data H Hk; simpl in H.
  - injection H as <-. reflexivity.
  - destruct (selected o); [|exact (IH _ H Hk)].
    destruct (Filtered.pushToArray data key (JStr (opt_value o))) as [|data'] eqn:Hp;
      [discriminate|].
    rewrite (IH _ H Hk). exact (filtered_pushToArray_has_key _ _ _ _ _ Hp Hk).
Qed.

Lemma filtered_names_differ nm n include exclude :
  Filtered.isNameFiltered nm include exclude = true ->
  Filtered.isNameFiltered n include exclude = false -> String.eqb n nm = false.
Proof. intros H1 H2. apply String.eqb_neq. intros ->. congruence. Qed.

Lemma filtered_serialize_element_has_key incl excl data e r nm :
  Filtered.isNameFiltered nm incl excl = true ->
  Filtered.serialize_element incl excl data e = inr r -> has_key nm r = has_key nm data.
Proof.
  intros Hf H. unfold Filtered.serialize_element in H.
  destruct (is_input e && _); [injection H as <-; reflexivity|].
  destruct (Filtered.isNameFiltered (name e) incl excl) eqn:Hn; [injection H as <-; reflexivity|].
  pose proof (filtered_names_differ _ _ _ _ Hf Hn) as Hne.
  destruct (tagName e).
  - destruct (String.eqb (type e) "radio").
    + destruct (checked e); [exact (filtered_pushToArray_has_key _ _ _ _ _ H Hne)|].
      injection H as <-. reflexivity.
    + destruct (String.eqb (type e) "checkbox"); exact (filtered_pushToArray_has_key _ _ _ _ _ H Hne).
  - exact (filtered_pushToArray_has_key _ _ _ _ _ H Hne).
  - destruct (multiple e); [exact (filtered_push_selected_has_key _ _ _ _ _ H Hne)|].
    exact (filtered_pushToArray_has_key _ _ _ _ _ H Hne).
  - injection H as <-. reflexivity.
Qed.

Lemma filtered_serialize_loop_has_key incl excl d is data r nm :
  Filtered.isNameFiltered nm incl excl = true ->
  Filtered.serialize_loop incl excl d is data = inr r -> has_key nm data = false ->
  has_key nm r = false.
Proof.
  intros Hf. revert data. induction is as [|i is IH]; intros data H Hd; simpl in H.
  - injection H as <-. exact Hd.
  - destruct (nth_error d i) as [e|]; [|exact (IH _ H Hd)].
    destruct (Filtered.serialize_element incl excl data e) as [|data'] eqn:He; [discriminate|].
    apply (IH _ H). rewrite (filtered_serialize_element_has_key _ _ _ _ _ _ Hf He). exact Hd.
Qed.

Lemma filtered_serialize_run incl excl w r w' :
  Filtered.serialize incl excl w = Ok r w' ->
  exists R, Filtered.read_elements w = Ok R w'
            /\ Filtered.serialize_loop incl excl (w_doc w') R [] = inr r.
Proof.
  intros H. unfold Filtered.serialize, bind in H.
  destruct (Filtered.read_elements w) as [R w1|e w1]; [|discriminate].
  unfold get_doc in H.
  destruct (Filtered.serialize_loop incl excl (w_doc w1) R []) eqn:E; [discriminate|].
  injection H as <- <-. eauto.
Qed.

Lemma keeps_filtered_handlers nm data vf incl excl ks acc :
  Filtered.isNameFiltered nm incl excl = true ->
  keeps (fun _ => True) (untouched nm) (Filtered.apply_handlers_loop data vf incl excl ks acc).
Proof.
  intros Hf. revert acc. induction ks as [|k ks IH]; intros acc; simpl; [apply keeps_ret|].
  destruct (js_in k data); [|apply IH].
  destruct (Filtered.isNameFiltered k incl excl) eqn:Hk; [apply IH|].
  pose proof (filtered_names_differ _ _ _ _ Hf Hk) as Hne. apply String.eqb_neq in Hne.
  apply keeps_bind; [apply keeps_iterate_values|]. intros vs.
  apply keeps_bind; [|intros _; apply IH].
  apply keeps_for_each. intros v _. apply keeps_call_handler.
  split; intros; intros Heq; inversion Heq; auto.
Qed.

Lemma keeps_read_elements J P :
  (forall d nm, J d -> J (remember d nm)) -> keeps J P Filtered.read_elements.
Proof.
  intros HJ. unfold Filtered.read_elements.
  apply keeps_bind; [apply keeps_form_lookup; auto|]. intros v.
  apply keeps_bind; [apply keeps_get_doc|]. intros d.
  destruct v as [[p|ps]|]; [destruct (nth_error d p) as [e|]; [destruct (tagName e)|]|..];
    first [apply keeps_ret|apply keeps_throw].
Qed.

Lemma keeps_filtered_restore_name nm san data key s :
  String.eqb key nm = false -> key <> "" ->
  keeps (fun d => map name_attr d = s) (untouched nm) (Filtered.restore_name san data key).
Proof.
  intros Hne Hkey. unfold Filtered.restore_name.
  apply keeps_bind; [apply keeps_read_elements; intros d n <-; apply names_remember|]. intros els.
  apply keeps_bind_ok with (Q := fun d => map name_attr d = s); [apply keeps_get_doc| |].
  { intros w a w' Hw Hg. unfold get_doc in Hg. injection Hg as <- _. exact Hw. }
  intros d Hd. apply keeps_for_each_i. intros p i Hp.
  unfold Filtered.elements_named in Hp. apply filter_In in Hp as [_ Hn].
  destruct (nth_error d p) as [e0|] eqn:He0; [|discriminate]. apply String.eqb_eq in Hn.
  eapply keeps_weaken; [|apply keeps_applyValues; reflexivity].
  intros ev (e & -> & Hs). split; [intros v Heq; discriminate|].
  intros p' Heq. injection Heq as <- Hna.
  rewrite <- Hd, nth_error_map, He0 in Hs. simpl in Hs. injection Hs as Hs.
  rewrite Hna in Hs. unfold name in Hn. rewrite Hs in Hn. subst key.
  rewrite String.eqb_refl in Hne. discriminate.
Qed.

(** C8. For a non-empty name, the filter excludes it exactly when the deny
    list holds it, or when the allow list is non-empty and does not hold it;
    an excluded name is never a key of a record [serialize] returns, and
    [deserialize] neither calls a value function for it nor makes a default
    write to a control of that name. *)
Theorem name_filter_semantics san nm include exclude :
  nm <> "" ->
  (Filtered.isNameFiltered nm include exclude = true <->
     In nm exclude \/ (include <> [] /\ ~ In nm include))
  /\ (Filtered.isNameFiltered nm include exclude = true ->
      (forall w r w', Filtered.serialize include exclude w = Ok r w' -> has_key nm r = false)
      /\ (forall data vf w, exists evs,
            w_log (outcome_world (Filtered.deserialize san data vf include exclude w))
            = w_log w ++ evs
            /\ Forall (untouched nm) evs)).
Proof.
  intros Hne. split.
  - unfold Filtered.isNameFiltered, truthy. apply String.eqb_neq in Hne. rewrite Hne. simpl negb.
    cbv iota.
    assert (Hex : forall l, existsb (String.eqb nm) l = true <-> In nm l).
    { intros l. rewrite existsb_exists. split.
      - intros (x & Hx & Heq). apply String.eqb_eq in Heq. subst. exact Hx.
      - intros H. exists nm. split; [exact H|apply String.eqb_refl]. }
    destruct (existsb (String.eqb nm) exclude) eqn:He.
    + split; [intros _; left; apply Hex; exact He|reflexivity].
    + assert (~ In nm exclude) by (rewrite <- Hex; congruence).
      destruct include as [|i is].
      * simpl. split; [discriminate|]. intros [H1|[H1 _]]; [contradiction|congruence].
      * change (Nat.ltb 0 (List.length (i :: is))) with true. cbn [andb].
        destruct (existsb (String.eqb nm) (i :: is)) eqn:Hi; cbn [negb].
        -- split; [discriminate|]. intros [H1|[_ H1]]; [contradiction|].
           exfalso. apply H1. apply (proj1 (Hex (i :: is))). exact Hi.
        -- split; [intros _; right; split; [discriminate|]|reflexivity].
           intros Hin. apply (proj2 (Hex (i :: is))) in Hin. congruence.
  - intros Hf. split.
    + intros w r w' Hs. destruct (filtered_serialize_run _ _ _ _ _ Hs) as (R & _ & Hl).
      exact (filtered_serialize_loop_has_key _ _ _ _ _ _ _ Hf Hl eq_refl).
    + intros data vf w.
      enough (K : keeps (fun _ => True) (untouched nm)
                        (Filtered.deserialize san data vf include exclude))
        by (destruct (K w I) as (evs & Hl & HP & _); exists evs; auto).
      unfold Filtered.deserialize. apply keeps_bind.
      * destruct vf as [vf|]; [apply keeps_filtered_handlers; exact Hf|apply keeps_ret].
      * intros handled. apply (keeps_true_of name_attr). intros s. apply keeps_for_each.
        intros key _.
        destruct (Filtered.isNameFiltered key include exclude) eqn:Hk; [apply keeps_ret|].
        destruct (existsb (String.eqb key) handled); [apply keeps_ret|].
        apply keeps_filtered_restore_name.
        -- exact (filtered_names_differ _ _ _ _ Hf Hk).
        -- intros ->. discriminate Hk.
Qed.

Lemma name_filter_semantics_witness :
  Filtered.isNameFiltered "pw" [] ["pw"] = true <->
    In "pw" ["pw"] \/ ([] <> @nil string /\ ~ In "pw" []).
Proof.
  destruct (name_filter_semantics (fun _ s => s) "pw" [] ["pw"]) as [H _]; [discriminate|exact H].
Defined.

(** ** The filtered revision: the keys of the record *)

Lemma map_fst_push k v (r : record) : map fst (push k v r) = map fst r.
Proof.
  induction r as [|[k' vs] r IH]; simpl; [reflexivity|].
  destruct (String.eqb k' k); simpl; rewrite ?IH; reflexivity.
Qed.

Lemma has_key_map_fst k (r : record) : has_key k r = existsb (String.eqb k) (map fst r).
Proof.
  unfold has_key. induction r as [|[k' vs] r IH]; simpl; [reflexivity|].
  rewrite IH, String.eqb_sym. reflexivity.
Qed.

Lemma existsb_eqb_in x l : existsb (String.eqb x) l = true <-> In x l.
Proof.
  rewrite existsb_exists. split.
  - intros (y & Hy & E). apply String.eqb_eq in E. subst. exact Hy.
  - intros H. exists x. split; [exact H|apply String.eqb_refl].
Qed.

Lemma snoc_not_nil {A} (l : list A) (x : A) : l ++ [x] <> [].
Proof. destruct l; discriminate. Qed.

Lemma push_absent k v (r : record) vs :
  has_key k r = false -> push k v (r ++ [(k, vs)]) = r ++ [(k, vs ++ [v])].
Proof.
  induction r as [|[k' vs'] r IH]; intros H; simpl.
  - rewrite String.eqb_refl. reflexivity.
  - unfold has_key in H. simpl in H. apply orb_false_iff in H as [H1 H2].
    rewrite H1, IH; [reflexivity|exact H2].
Qed.

Lemma push_entries (Q : string -> Prop) k v (r : record) :
  Forall (fun kv => snd kv <> [] /\ Q (fst kv)) r ->
  Forall (fun kv => snd kv <> [] /\ Q (fst kv)) (push k v r).
Proof.
  induction r as [|[k' vs] r IH]; intros H; simpl; [constructor|].
  inversion H as [|? ? [Hne HQ] Hr]; subst.
  destruct (String.eqb k' k); constructor; simpl; auto.
  split; [apply snoc_not_nil|exact HQ].
Qed.

Lemma filtered_pushToArray_inv (Q : string -> Prop) r k v r' :
  record_inv Q r -> Q k -> Filtered.pushToArray r k v = inr r' -> record_inv Q r'.
Proof.
  intros [Hnd Hf] HQ. unfold Filtered.pushToArray, js_in.
  destruct (has_key k r) eqn:Hk; cbn [orb].
  - unfold js_push. rewrite Hk. intros H. injection H as <-.
    split; [rewrite map_fst_push; exact Hnd|apply push_entries, Hf].
  - destruct (is_prototype_name k); unfold js_push; [rewrite Hk; discriminate|].
    rewrite has_key_app_new, String.eqb_refl, orb_true_r. intros H. injection H as <-.
      rewrite push_absent by exact Hk. split.
      * rewrite map_app. apply NoDup_app; [exact Hnd|constructor; [intros []|constructor]|].
        intros x Hx [<- | []]. rewrite has_key_map_fst in Hk.
        apply (proj2 (existsb_eqb_in k (map fst r))) in Hx. congruence.
      * apply Forall_app. split; [exact Hf|]. constructor; [|constructor].
        simpl. split; [discriminate|exact HQ].
Qed.

Lemma filtered_serialize_element_inv (Q : string -> Prop) incl excl data e r :
  record_inv Q data ->
  (nonfp e = true -> Filtered.isNameFiltered (name e) incl excl = false -> contrib e <> [] ->
   Q (name e)) ->
  Filtered.serialize_element incl excl data e = inr r -> record_inv Q r.
Proof.
  intros Hinv HQ H. unfold Filtered.serialize_element in H. unfold nonfp, contrib in HQ.
  destruct (is_input e && (String.eqb (type e) "password" || String.eqb (type e) "file"));
    [injection H as <-; exact Hinv|].
  destruct (Filtered.isNameFiltered (name e) incl excl); [injection H as <-; exact Hinv|].
  specialize (HQ eq_refl eq_refl).
  destruct (tagName e).
  - destruct (String.eqb (type e) "radio").
    + destruct (checked e); [|injection H as <-; exact Hinv].
      eapply (filtered_pushToArray_inv _ _ _ _ _ Hinv); [apply HQ; discriminate|exact H].
    + destruct (String.eqb (type e) "checkbox");
        (eapply (filtered_pushToArray_inv _ _ _ _ _ Hinv); [apply HQ; discriminate|exact H]).
  - eapply (filtered_pushToArray_inv _ _ _ _ _ Hinv); [apply HQ; discriminate|exact H].
  - destruct (multiple e).
    + assert (Hos : forall o, In o (options e) -> selected o = true -> Q (name e)).
      { intros o Ho Hs. apply HQ. intros Hnil.
        assert (Hin : In o (filter selected (options e))) by (apply filter_In; auto).
        destruct (filter selected (options e)); [destruct Hin|discriminate]. }
      clear HQ. revert data Hinv H Hos. induction (options e) as [|o os IH];
        intros data0 Hinv H Hos; simpl in H; [injection H as <-; exact Hinv|].
      destruct (selected o) eqn:Hs.
      * destruct (Filtered.pushToArray data0 (name e) (JStr (opt_value o))) as [|d1] eqn:Hp;
          [discriminate|].
        apply (IH d1); [|exact H|intros o' Ho'; apply Hos; right; exact Ho'].
        eapply (filtered_pushToArray_inv _ _ _ _ _ Hinv); [apply (Hos o); [left|]; auto|exact Hp].
      * apply (IH data0 Hinv H). intros o' Ho'. apply Hos. right. exact Ho'.
    + eapply (filtered_pushToArray_inv _ _ _ _ _ Hinv); [apply HQ; discriminate|exact H].
  - injection H as <-. exact Hinv.
Qed.

Lemma read_elements_plain w :
  form_named (w_doc w) "elements" = None ->
  Filtered.read_elements w = Ok (Filtered.form_elements (w_doc w)) w.
Proof.
  intros H. unfold Filtered.read_elements, bind. rewrite form_lookup_run, H.
  rewrite (remember_none _ _ H), upd_nil. reflexivity.
Qed.

(** In the filtered revision, when [serialize] returns a record, its keys
    are distinct; each is a non-empty name that the include/exclude lists
    let through, bound to a non-empty list of values, and is the name of an
    element [form.elements] gave, not a password or file input, that
    contributes a value. Without a control named [elements], [form.elements]
    is the collection of listed elements owned by the form, and is read
    without changing the page. *)
Theorem filtered_serialize_keys incl excl w r w' :
  Filtered.serialize incl excl w = Ok r w' ->
  exists R, Filtered.read_elements w = Ok R w'
  /\ (form_named (w_doc w) "elements" = None -> R = Filtered.form_elements (w_doc w) /\ w' = w)
  /\ NoDup (map fst r)
  /\ forall k vs, In (k, vs) r ->
       vs <> [] /\ k <> "" /\ Filtered.isNameFiltered k incl excl = false
       /\ exists i e, In i R /\ nth_error (w_doc w') i = Some e
                      /\ name e = k /\ nonfp e = true /\ contrib e <> [].
Proof.
  intros Hs. destruct (filtered_serialize_run _ _ _ _ _ Hs) as (R & Hr & Hl).
  exists R. split; [exact Hr|]. split.
  { intros Hn. rewrite read_elements_plain in Hr by exact Hn. injection Hr as <- <-. auto. }
  set (d := w_doc w') in *.
  set (Q := fun k => Filtered.isNameFiltered k incl excl = false
         /\ exists i e, In i R /\ nth_error d i = Some e
                        /\ name e = k /\ nonfp e = true /\ contrib e <> []).
  assert (Hgen : forall is data r, (forall i, In i is -> In i R) -> record_inv Q data ->
                 Filtered.serialize_loop incl excl d is data = inr r -> record_inv Q r).
  { induction is as [|i is IH]; intros data r0 Hsub Hdata H; simpl in H.
    - injection H as <-. exact Hdata.
    - destruct (nth_error d i) as [e|] eqn:He;
        [|exact (IH _ _ (fun j Hj => Hsub j (or_intror Hj)) Hdata H)].
      destruct (Filtered.serialize_element incl excl data e) as [|d1] eqn:Hse; [discriminate|].
      apply (IH d1 r0 (fun j Hj => Hsub j (or_intror Hj))); [|exact H].
      apply (filtered_serialize_element_inv Q incl excl data e); [exact Hdata| |exact Hse].
      intros Hn Hf Hc. split; [exact Hf|]. exists i, e.
      repeat split; auto. apply Hsub. left. reflexivity. }
  destruct (Hgen R [] r (fun i Hi => Hi) (conj (NoDup_nil _) (Forall_nil _)) Hl) as [Hnd Hf].
  split; [exact Hnd|].
  intros k vs Hin. rewrite Forall_forall in Hf. destruct (Hf _ Hin) as [Hne [Hfil Hex]].
  simpl in Hne, Hfil, Hex. split; [exact Hne|]. split; [|split; [exact Hfil|exact Hex]].
  intros ->. discriminate Hfil.
Qed.

Lemma filtered_serialize_keys_witness :
  exists R, Filtered.read_elements (page [checkbox_test true]) = Ok R (page [checkbox_test true])
            /\ NoDup (map fst [("test", [JBool true])]).
Proof.
  destruct (filtered_serialize_keys [] [] (page [checkbox_test true]) [("test", [JBool true])]
              (page [checkbox_test true])) as (R & H1 & _ & H2 & _).
  - vm_compute. reflexivity.
  - exists R. auto.
Defined.

(** ** What the default restoration leaves alone *)

Lemma skeleton_set_options e os :
  map opt_value os = map opt_value (options e) -> skeleton (set_options e os) = skeleton e.
Proof. intros H. unfold skeleton. simpl. rewrite H. reflexivity. Qed.

Lemma keeps_applyValues_skeleton san s p vs i :
  keeps (fun d => map skeleton d = s) (fun _ => True) (applyValues san p vs i).
Proof.
  eapply keeps_weaken; [|apply keeps_applyValues].
  - intros; exact I.
  - reflexivity.
  - reflexivity.
  - apply skeleton_set_options.
Qed.

(** Without value functions, [deserialize] (in both revisions) assigns only
    values, checked states and the options' selection: every element keeps
    its place, tag, type, name, id, [form] attribute, nesting, owner,
    [multiple] flag and option values, also when the run throws. *)
Theorem deserialize_keeps_skeleton san f data cfg w :
  valueFunctions cfg = None ->
  map skeleton (w_doc (outcome_world (deserialize san f data cfg w))) = map skeleton (w_doc w)
  /\ (forall include exclude,
        map skeleton (w_doc (outcome_world (Filtered.deserialize san data None include exclude w)))
        = map skeleton (w_doc w)).
Proof.
  intros Hvf. split.
  - assert (K : keeps (fun d => map skeleton d = map skeleton (w_doc w)) (fun _ => True)
                      (deserialize san f data cfg)).
    { unfold deserialize. rewrite Hvf. apply keeps_bind; [apply keeps_ret|]. intros sh.
      apply keeps_for_each. intros nm _.
      destruct (existsb (String.eqb nm) sh); [apply keeps_ret|]. unfold restore_name.
      apply keeps_bind.
      - eapply keeps_weaken; [|apply keeps_getFormElements]; [intros; exact I|].
        intros d n <-. apply map_remember. reflexivity.
      - intros inputs. apply keeps_for_each_i. intros p i _. apply keeps_applyValues_skeleton. }
    destruct (K w eq_refl) as (_ & _ & _ & H & _). exact H.
  - intros include exclude.
    assert (K : keeps (fun d => map skeleton d = map skeleton (w_doc w)) (fun _ => True)
                      (Filtered.deserialize san data None include exclude)).
    { unfold Filtered.deserialize. apply keeps_bind; [apply keeps_ret|]. intros sh.
      apply keeps_for_each. intros nm _.
      destruct (Filtered.isNameFiltered nm include exclude); [apply keeps_ret|].
      destruct (existsb (String.eqb nm) sh); [apply keeps_ret|]. unfold Filtered.restore_name.
      apply keeps_bind; [apply keeps_read_elements; intros d n <-; apply map_remember; reflexivity|].
      intros els. apply keeps_bind; [apply keeps_get_doc|]. intros d.
      apply keeps_for_each_i. intros p i _. apply keeps_applyValues_skeleton. }
    destruct (K w eq_refl) as (_ & _ & _ & H & _). exact H.
Qed.

Lemma deserialize_keeps_skeleton_witness :
  map skeleton (w_doc (outcome_world
    (deserialize (fun _ s => s) (mkForm "f1" None) [("test", [JBool true])] defaults
                 (page [checkbox_test false]))))
  = map skeleton [checkbox_test false].
Proof.
  exact (proj1 (deserialize_keeps_skeleton (fun _ s => s) (mkForm "f1" None)
                  [("test", [JBool true])] defaults (page [checkbox_test false]) eq_refl)).
Defined.

(** ** The round trip of [serialize] and [deserialize] *)








Lemma in_resolved_range f sk v d p : In p (resolved f sk v d) -> exists e, nth_error d p = Some e.
Proof.
  unfold resolved, nested_controls, external_controls. intros H. apply in_app_or in H as [H|H].
  - destruct (in_querySelectorAll _ _ _ H) as (e & He & _). eauto.
  - destruct (external_on f sk); [|destruct H].
    destruct (in_querySelectorAll _ _ _ H) as (e & He & _). eauto.
Qed.





































